(** * Punctuation and capitalization inference: segmentation, label alignment
      and vote accumulation

    A shallow embedding of
    [examples/nlp/machine_translation/punctuation_infer/punctuate_capitalize_nmt.py]:
    [get_args] with the parser it builds, [split_into_segments],
    [adjust_predicted_labels_length], [apply_autoregressive_labels] and the
    way [main] wires them together.

    Python integers are [Z]; Python strings are [string] (characters are
    taken in the Latin-1 range); Python lists are [list].  A raised
    exception is a value of [outcome]; a [while] loop that may run forever
    takes a fuel argument and answers [None] when the fuel is used up. *)

From Stdlib Require Import ZArith List Bool Ascii String Lia Sorted.
Import ListNotations.

Open Scope Z_scope.

(** ** Python primitives used by the script *)

Module Py.

(** Exceptions the modelled code can raise. *)
Inductive exn : Type :=
  | IndexError
  | AssertionError
  | ValueError
  | ReError
  | TypeError
  | AttributeError.

Inductive outcome (A : Type) : Type :=
  | Return (a : A)
  | Raise (e : exn).
Arguments Return {A} a.
Arguments Raise {A} e.

Definition bind {A B : Type} (m : outcome A) (k : A -> outcome B) : outcome B :=
  match m with
  | Return a => k a
  | Raise e => Raise e
  end.

Notation "x <- m ;; k" := (bind m (fun x => k))
  (at level 61, m at next level, right associativity).

(** [str.isspace] on one character (code points below 256). *)
Definition is_space (c : ascii) : bool :=
  let n := nat_of_ascii c in
  ((9 <=? n) && (n <=? 13) || (28 <=? n) && (n <=? 32)
   || (n =? 133) || (n =? 160))%nat.

Definition is_empty (s : string) : bool :=
  match s with
  | EmptyString => true
  | String _ _ => false
  end.

(** [s + c] for a single character [c]. *)
Definition snoc (s : string) (c : ascii) : string :=
  (s ++ String c EmptyString)%string.

(** [str.split()] with no separator: runs of whitespace separate the words,
    leading and trailing whitespace is dropped.  [cur] is the word being
    read. *)
Fixpoint split_from (cur : string) (s : string) : list string :=
  match s with
  | EmptyString => if is_empty cur then [] else [cur]
  | String c s' =>
      if is_space c then
        if is_empty cur then split_from EmptyString s'
        else cur :: split_from EmptyString s'
      else split_from (snoc cur c) s'
  end.

Definition split (s : string) : list string := split_from EmptyString s.

(** [sep.join(ws)]. *)
Fixpoint join (sep : string) (ws : list string) : string :=
  match ws with
  | [] => EmptyString
  | [w] => w
  | w :: ws' => (w ++ sep ++ join sep ws')%string
  end.

(** [len(l)] as a Python integer. *)
Definition len {A : Type} (l : list A) : Z := Z.of_nat (List.length l).

Definition strlen (s : string) : Z := Z.of_nat (String.length s).

(** A slice bound is clamped as Python does: a negative bound counts from
    the end, and the result is kept inside [0, n]. *)
Definition clamp (n i : Z) : Z :=
  if i <? 0 then Z.max 0 (i + n) else Z.min i n.

(** [l[a:b]]. *)
Definition slice {A : Type} (l : list A) (a b : Z) : list A :=
  let lo := clamp (len l) a in
  let hi := clamp (len l) b in
  firstn (Z.to_nat (hi - lo)) (skipn (Z.to_nat lo) l).

(** [s[:b]] on a string. *)
Definition str_slice_to (s : string) (b : Z) : string :=
  string_of_list_ascii (slice (list_ascii_of_string s) 0 b).

(** [l[i]] : a negative index counts from the end, anything outside the
    list raises [IndexError]. *)
Definition index {A : Type} (l : list A) (i : Z) : outcome A :=
  let k := if i <? 0 then i + len l else i in
  if k <? 0 then Raise IndexError
  else match nth_error l (Z.to_nat k) with
       | Some x => Return x
       | None => Raise IndexError
       end.

Definition str_index (s : string) (i : Z) : outcome ascii :=
  index (list_ascii_of_string s) i.

(** [c in s] for a single character [c]. *)
Fixpoint char_in (c : ascii) (s : string) : bool :=
  match s with
  | EmptyString => false
  | String d s' => Ascii.eqb c d || char_in c s'
  end.

(** [s.startswith(p)]. *)
Fixpoint starts_with (p s : string) : bool :=
  match p with
  | EmptyString => true
  | String c p' =>
      match s with
      | EmptyString => false
      | String d s' => Ascii.eqb c d && starts_with p' s'
      end
  end.

(** [sub in s] on strings: [sub] occurs in [s] as a substring. *)
Fixpoint str_in (sub s : string) : bool :=
  starts_with sub s
  || match s with
     | EmptyString => false
     | String _ s' => str_in sub s'
     end.

(** [s.split(sep)] for a non-empty [sep]: the occurrences of [sep] are found
    from left to right without overlap.  [skip] counts the characters of a
    separator that has just been matched and is still to be passed over;
    [cur] is the piece being read. *)
Fixpoint split_on_from (sep : string) (skip : nat) (cur : string) (s : string)
  : list string :=
  match s with
  | EmptyString => [cur]
  | String c s' =>
      match skip with
      | S k => split_on_from sep k cur s'
      | O =>
          if starts_with sep s
          then cur :: split_on_from sep (Nat.pred (String.length sep)) EmptyString s'
          else split_on_from sep O (snoc cur c) s'
      end
  end.

(** [s.split(sep)]: an empty separator raises [ValueError]. *)
Definition split_on (s sep : string) : outcome (list string) :=
  if is_empty sep then Raise ValueError
  else Return (split_on_from sep O EmptyString s).

(** [len(re.compile("[" + cls + "]").findall(s))]: the number of characters of
    [s] that belong to the class.  The class is read as a plain set of
    characters, as it is for label alphabets such as the default [OuU] that
    hold no character with a special meaning inside brackets. *)
Fixpoint count_class (cls : string) (s : string) : Z :=
  match s with
  | EmptyString => 0
  | String c s' => (if char_in c cls then 1 else 0) + count_class cls s'
  end.

(** [s * n] for strings: a non-positive [n] gives the empty string. *)
Fixpoint repeat_nat (s : string) (n : nat) : string :=
  match n with
  | O => EmptyString
  | S k => (s ++ repeat_nat s k)%string
  end.

Definition repeat (s : string) (n : Z) : string := repeat_nat s (Z.to_nat n).

(** [zip(xs, ys)]. *)
Definition zip {A B : Type} (xs : list A) (ys : list B) : list (A * B) :=
  List.combine xs ys.

(** [enumerate(xs)], counting from [i]. *)
Fixpoint enumerate_from {A : Type} (i : Z) (xs : list A) : list (Z * A) :=
  match xs with
  | [] => []
  | x :: xs' => (i, x) :: enumerate_from (i + 1) xs'
  end.

Definition enumerate {A : Type} (xs : list A) : list (Z * A) :=
  enumerate_from 0 xs.

(** [s.lstrip()]: leading whitespace is dropped. *)
Fixpoint lstrip (s : string) : string :=
  match s with
  | EmptyString => EmptyString
  | String c s' => if is_space c then lstrip s' else s
  end.

(** [s.rstrip()]: trailing whitespace is dropped. *)
Fixpoint rstrip (s : string) : string :=
  match s with
  | EmptyString => EmptyString
  | String c s' =>
      let r := rstrip s' in
      if is_empty r && is_space c then EmptyString else String c r
  end.

(** [s.strip()]. *)
Definition strip (s : string) : string := rstrip (lstrip s).

(** [count] numbers from [i] on, [step] apart. *)
Fixpoint range_from (count : nat) (i step : Z) : list Z :=
  match count with
  | O => []
  | S count' => i :: range_from count' (i + step) step
  end.

(** [range(start, stop, step)]: a zero step raises [ValueError]. *)
Definition range (start stop step : Z) : outcome (list Z) :=
  if step =? 0 then Raise ValueError
  else if 0 <? step then
    Return (range_from (Z.to_nat ((stop - start + step - 1) / step)) start step)
  else
    Return (range_from (Z.to_nat ((start - stop - step - 1) / (- step)))
              start step).

End Py.

Import Py.
Open Scope string_scope.
Open Scope list_scope.
Open Scope Z_scope.

(** ** [get_args] (lines 14-125) *)

(** The attributes of the namespace returned by [parser.parse_args()] that
    the rest of the script reads. *)
Record Args : Type := mkArgs {
  input_manifest : option string;
  input_text : option string;
  output_manifest : option string;
  output_text : option string;
  model_path : option string;
  max_seq_length : Z;
  step : Z;
  margin : Z;
  batch_size : Z;
  capitalization_labels : string
}.

(** What [parser.error] is called with; the numbers are the values the
    message interpolates.  [parser.error] prints the message and exits. *)
Inductive parser_error : Type :=
  | OutputManifestRequiresInputManifest
  | MaxSeqLengthNotPositive (max_seq_length : Z)
  | MarginStepCondition (max_seq_length margin step : Z).

(** The keywords [add_argument] knows for the options of this script; the
    call hands the others on to the action it builds, whose constructor
    turns an unknown keyword down with [TypeError]. *)
Definition add_argument_keywords : list string :=
  ["action"; "nargs"; "const"; "default"; "type"; "choices"; "required";
   "help"; "metavar"; "dest"].

(** One call of [add_argument], given as the name of the attribute the
    option fills and the keywords the call is written with. *)
Definition add_argument (call : string * list string) : outcome string :=
  if forallb (fun k => existsb (String.eqb k) add_argument_keywords) (snd call)
  then Return (fst call)
  else Raise TypeError.

(** The calls of lines 26-108, in the order they are made.  The last one
    (line 105) is written with the keyword [defalt]. *)
Definition parser_arguments : list (string * list string) :=
  [("input_manifest", ["type"; "help"]);
   ("input_text", ["type"; "help"]);
   ("output_manifest", ["type"; "help"]);
   ("output_text", ["type"; "help"]);
   ("model_path", ["type"; "help"]);
   ("max_seq_length", ["type"; "default"; "help"]);
   ("step", ["type"; "default"; "help"]);
   ("margin", ["type"; "default"; "help"]);
   ("batch_size", ["type"; "default"; "help"]);
   ("device", ["choices"; "help"]);
   ("add_source_num_words_to_batch", ["action"; "help"]);
   ("capitalization_labels", ["defalt"; "help"])].

(** Lines 15-108: the parser is built option by option; [dests] are the
    attributes defined so far. *)
Fixpoint build_parser (calls : list (string * list string))
    (dests : list string) : outcome (list string) :=
  match calls with
  | [] => Return dests
  | call :: rest =>
      dest <- add_argument call ;;
      build_parser rest (dests ++ [dest])
  end.

(** [args.name], for a namespace that holds the attributes the options of
    lines 26-108 name and no other: reading any other attribute raises
    [AttributeError]. *)
Definition getattr_defined (name : string) : outcome unit :=
  if existsb (String.eqb name) (map fst parser_arguments) then Return tt
  else Raise AttributeError.

Section GetArgs.

(** [Path.expanduser], which depends on the environment. *)
Variable expanduser : string -> string.

Definition expand_paths (args : Args) : Args :=
  mkArgs (option_map expanduser (input_manifest args))
         (option_map expanduser (input_text args))
         (option_map expanduser (output_manifest args))
         (option_map expanduser (output_text args))
         (option_map expanduser (model_path args))
         (max_seq_length args) (step args) (margin args) (batch_size args)
         (capitalization_labels args).

Definition is_none {A : Type} (o : option A) : bool :=
  match o with
  | None => true
  | Some _ => false
  end.

(** Lines 110-125: the checks that follow [parser.parse_args()], on the
    namespace [args] it returned. *)
Definition get_args_checks (args : Args) : parser_error + Args :=
  if is_none (input_manifest args) && negb (is_none (output_manifest args))
  then inl OutputManifestRequiresInputManifest
  else if max_seq_length args <=? 0
  then inl (MaxSeqLengthNotPositive (max_seq_length args))
  else if max_seq_length args - 2 * margin args <? step args
  then inl (MarginStepCondition (max_seq_length args) (margin args) (step args))
  else inr (expand_paths args).

(** The whole function: the parser is built (lines 15-108), the command
    line is parsed into [args] (line 109) and [args] is checked. *)
Definition get_args (args : Args) : outcome (parser_error + Args) :=
  dests <- build_parser parser_arguments [] ;;
  Return (get_args_checks args).

End GetArgs.

(** ** [split_into_segments] (lines 137-147) *)

(** The variables of the function.  [segment_start] is set to [0] once,
    before the loop over the queries. *)
Record seg_state : Type := mkSegState {
  segments : list string;
  query_indices : list Z;
  start_word_i : list Z;
  segment_start : Z
}.

(** One pass through the body of the [while] loop (lines 143-146). *)
Definition emit_window (words : list string) (q_i max_seq_length step : Z)
    (st : seg_state) : seg_state :=
  mkSegState
    (segments st ++
       [join " " (slice words (segment_start st) (segment_start st + max_seq_length))])
    (query_indices st ++ [q_i])
    (start_word_i st ++ [segment_start st])
    (segment_start st + step).

(** The [while] loop of line 142.  [None]: the fuel ran out with the
    condition still true. *)
Fixpoint while_window (fuel : nat) (words : list string)
    (q_i max_seq_length step : Z) (st : seg_state) : option seg_state :=
  if segment_start st + max_seq_length <? len words then
    match fuel with
    | O => None
    | S fuel' =>
        while_window fuel' words q_i max_seq_length step
          (emit_window words q_i max_seq_length step st)
    end
  else Some st.

(** With a positive [step] the loop runs at most this many times; with
    [step <= 0] it runs forever once entered (see [while_window_enough] and
    [while_window_diverges]). *)
Definition window_fuel (words : list string) (max_seq_length : Z)
    (st : seg_state) : nat :=
  Z.to_nat (len words - (segment_start st + max_seq_length)).

(** The [for] loop over [enumerate(texts)] (lines 140-146). *)
Fixpoint for_queries (qs : list (Z * string)) (max_seq_length step : Z)
    (st : seg_state) : option seg_state :=
  match qs with
  | [] => Some st
  | (q_i, query) :: rest =>
      let words := split query in
      match while_window (window_fuel words max_seq_length st)
              words q_i max_seq_length step st with
      | None => None
      | Some st' => for_queries rest max_seq_length step st'
      end
  end.

(** [None] stands for a run that never returns. *)
Definition split_into_segments (texts : list string) (max_seq_length step : Z)
  : option (list string * list Z * list Z) :=
  match for_queries (enumerate texts) max_seq_length step
          (mkSegState [] [] [] 0) with
  | None => None
  | Some st => Some (segments st, query_indices st, start_word_i st)
  end.

(** Line 239 of [main]: how the script calls the function. *)
Definition main_split_into_segments (args : Args) (texts : list string)
  : option (list string * list Z * list Z) :=
  split_into_segments texts (max_seq_length args) (margin args).

(** ** [adjust_predicted_labels_length] (lines 150-170) *)

(** [re.compile("[" + cls + "]")]: an empty class is not a valid pattern.
    As for [count_class], the alphabet is read as a plain set of characters;
    a caret, a hyphen, a closing bracket or a backslash in it is outside
    this model (see [plain_class]). *)
Definition re_compile_class (cls : string) : outcome string :=
  if is_empty cls then Raise ReError else Return cls.

(** The [while] loop of lines 164-167.  [pos] starts at [len(labels) - 1]
    and goes down by one per pass, so [labels[pos]] is inside the string for
    [2 * len(labels)] passes (first from the end, then through the negative
    indices) and raises [IndexError] at the next one; [left] counts the
    passes that remain before that. *)
Fixpoint truncate_while (left : nat) (caps labels : string)
    (num_words i pos : Z) : outcome Z :=
  if num_words <? i then
    match left with
    | O => Raise IndexError
    | S left' =>
        c <- str_index labels pos ;;
        truncate_while left' caps labels num_words
          (if char_in c caps then i - 1 else i) (pos - 1)
    end
  else Return pos.

(** The body of the [for] loop (lines 156-168): the new value of [labels]. *)
Definition adjust_labels (caps segment labels : string) : outcome string :=
  let num_words := len (split segment) in
  let num_word_labels := count_class caps segment in
  if num_word_labels <? num_words then
    last <- str_index labels (-1) ;;
    if negb (Ascii.eqb last " ") then
      neutral <- str_index caps 0 ;;
      Return (labels ++ " "
                ++ repeat (String neutral " ") (num_words - num_word_labels))%string
    else Return labels
  else if num_words <? num_word_labels then
    pos <- truncate_while (2 * String.length labels) caps labels num_words
             num_word_labels (strlen labels - 1) ;;
    Return (str_slice_to labels (pos + 1))
  else Return labels.

Fixpoint adjust_loop (caps : string) (pairs : list (string * string))
    (result : list string) : outcome (list string) :=
  match pairs with
  | [] => Return result
  | (segment, labels) :: rest =>
      labels' <- adjust_labels caps segment labels ;;
      adjust_loop caps rest (result ++ [labels'])
  end.

Definition adjust_predicted_labels_length (segments autoregressive_labels : list string)
    (capitalization_labels : string) : outcome (list string) :=
  cls <- re_compile_class capitalization_labels ;;
  adjust_loop cls (zip segments autoregressive_labels) [].

(** ** [apply_autoregressive_labels] (lines 173-210) *)

(** A [collections.Counter] keyed by strings, in insertion order. *)
Definition Counter : Type := list (string * Z).

(** [c.update([k])]. *)
Fixpoint counter_update (c : Counter) (k : string) : Counter :=
  match c with
  | [] => [(k, 1)]
  | (k', n) :: c' =>
      if String.eqb k k' then (k', n + 1) :: c'
      else (k', n) :: counter_update c' k
  end.

(** [c[k]]: the number of votes for [k]. *)
Fixpoint counter_get (c : Counter) (k : string) : Z :=
  match c with
  | [] => 0
  | (k', n) :: c' => if String.eqb k k' then n else counter_get c' k
  end.

(** [sum(c.values())]. *)
Definition counter_total (c : Counter) : Z :=
  fold_right (fun kn acc => snd kn + acc) 0 c.

Fixpoint set_nth {A : Type} (l : list A) (n : nat) (x : A) : list A :=
  match l, n with
  | [], _ => []
  | _ :: l', O => x :: l'
  | y :: l', S n' => y :: set_nth l' n' x
  end.

(** [voting[i].update([lbl])] for [i >= 0]: the counter at position [i] is
    changed in place; a position outside the list raises [IndexError]. *)
Definition vote (voting : list Counter) (i : Z) (lbl : string)
  : outcome (list Counter) :=
  c <- index voting i ;;
  Return (set_nth voting (Z.to_nat i) (counter_update c lbl)).

(** [[Counter() for _ in range(n)]]. *)
Definition fresh_counters (n : Z) : list Counter :=
  List.repeat ([] : Counter) (Z.to_nat n).

(** The two vote arrays of one query. *)
Record tally : Type := mkTally {
  punctuation_voting : list Counter;
  capitalization_voting : list Counter
}.

(** How one pass through the body of the [for] loop over the fields ends:
    at the [continue] of line 200, at the [break] of line 202, or at the end
    of the body (lines 203-210). *)
Inductive flow : Type :=
  | Skipped
  | Stopped
  | Counted.

(** The body of the [for] loop of line 196, for the field [lbl] at position
    [lbl_i]: how it ends, the new [num_processed] and the new vote arrays.
    [num_processed <= margin != 0] is Python's chained comparison. *)
Definition field_step (caps : string) (j margin : Z) (the_last_segment : bool)
    (num_words_in_segment : Z) (num_processed : Z) (t : tally)
    (lbl_i : Z) (lbl : string) : outcome (flow * Z * tally) :=
  let num_processed :=
    if str_in lbl caps then num_processed + 1 else num_processed in
  if (0 <? j) && ((num_processed <=? margin) && negb (margin =? 0)) then
    Return (Skipped, num_processed, t)
  else if negb the_last_segment
          && (num_words_in_segment - margin <? num_processed) then
    Return (Stopped, num_processed, t)
  else if negb (lbl_i mod 2 =? 0) then
    if negb (str_in lbl caps) then Raise AssertionError
    else if negb (is_empty lbl) then
      cv <- vote (capitalization_voting t) (lbl_i / 2) lbl ;;
      Return (Counted, num_processed, mkTally (punctuation_voting t) cv)
    else Return (Counted, num_processed, t)
  else
    if str_in lbl caps then Raise AssertionError
    else if negb (is_empty lbl) then
      pv <- vote (punctuation_voting t) (lbl_i / 2) lbl ;;
      Return (Counted, num_processed, mkTally pv (capitalization_voting t))
    else Return (Counted, num_processed, t).

(** The [for] loop of lines 196-210 over [enumerate(labels)]. *)
Fixpoint for_fields (caps : string) (j margin : Z) (the_last_segment : bool)
    (num_words_in_segment : Z) (fields : list (Z * string))
    (num_processed : Z) (t : tally) : outcome tally :=
  match fields with
  | [] => Return t
  | (lbl_i, lbl) :: rest =>
      r <- field_step caps j margin the_last_segment num_words_in_segment
             num_processed t lbl_i lbl ;;
      match r with
      | (Stopped, _, t') => Return t'
      | (_, num_processed', t') =>
          for_fields caps j margin the_last_segment num_words_in_segment rest
            num_processed' t'
      end
  end.

(** The body of the [while] loop (lines 192-210) for the segment at index
    [j].  The labels are split by [capitalization_labels.split(...)]: the
    label alphabet is the string that is split and the segment's label
    string is the separator. *)
Definition segment_body (segment_autoregressive_labels : list string)
    (step margin : Z) (caps : string) (num_words j : Z) (t : tally)
  : outcome tally :=
  seg_labels <- index segment_autoregressive_labels j ;;
  let num_words_in_segment := count_class caps seg_labels in
  let the_last_segment := num_words <=? j * step + num_words_in_segment in
  labels <- split_on caps seg_labels ;;
  for_fields caps j margin the_last_segment num_words_in_segment
    (enumerate labels) 0 t.

(** The [while] loop of line 191.  Nothing in its body assigns [j].
    [None]: the fuel ran out with the condition still true. *)
Fixpoint while_segments (fuel : nat) (segment_autoregressive_labels : list string)
    (query_indices : list Z) (step margin : Z) (caps : string)
    (q_i num_words j : Z) (t : tally) : option (outcome tally) :=
  match index query_indices j with
  | Raise e => Some (Raise e)
  | Return owner =>
      if owner =? q_i then
        match fuel with
        | O => None
        | S fuel' =>
            match segment_body segment_autoregressive_labels step margin caps
                    num_words j t with
            | Raise e => Some (Raise e)
            | Return t' =>
                while_segments fuel' segment_autoregressive_labels
                  query_indices step margin caps q_i num_words j t'
            end
        end
      else Some (Return t)
  end.

(** The body of the [for] loop over the queries (lines 186-210): the vote
    arrays of query [q_i] once its [while] loop is left. *)
Definition accumulate_query (fuel : nat) (segment_autoregressive_labels : list string)
    (query_indices : list Z) (step margin : Z) (caps : string)
    (q_i : Z) (query : string) : option (outcome tally) :=
  let words := split query in
  let num_words := len words in
  let t := mkTally (fresh_counters (num_words + 1)) (fresh_counters num_words) in
  while_segments fuel segment_autoregressive_labels query_indices step margin
    caps q_i num_words 0 t.

(** The value a call evaluates to. *)
Inductive py_value : Type :=
  | PyNone
  | PyList (l : list string).

(** The [for] loop of line 185.  The vote arrays of a query are dropped when
    the next query starts; [result] is never appended to. *)
Fixpoint for_each_query (fuel : nat) (segment_autoregressive_labels : list string)
    (query_indices : list Z) (step margin : Z) (caps : string)
    (qs : list (Z * string)) : option (outcome unit) :=
  match qs with
  | [] => Some (Return tt)
  | (q_i, query) :: rest =>
      match accumulate_query fuel segment_autoregressive_labels query_indices
              step margin caps q_i query with
      | None => None
      | Some (Raise e) => Some (Raise e)
      | Some (Return _) =>
          for_each_query fuel segment_autoregressive_labels query_indices
            step margin caps rest
      end
  end.

(** The function has no [return] statement: when the loop over the queries
    ends the call evaluates to [None].  [start_word_i] is not read.  The
    outer [None] is a run that is still going when the fuel (per [while]
    loop) is used up. *)
Definition apply_autoregressive_labels (fuel : nat) (queries : list string)
    (segment_autoregressive_labels : list string) (query_indices : list Z)
    (start_word_i : list Z) (step margin : Z) (capitalization_labels : string)
  : option (outcome py_value) :=
  match re_compile_class capitalization_labels with
  | Raise e => Some (Raise e)
  | Return caps =>
      match for_each_query fuel segment_autoregressive_labels query_indices
              step margin caps (enumerate queries) with
      | None => None
      | Some (Raise e) => Some (Raise e)
      | Some (Return _) => Some (Return PyNone)
      end
  end.

(** ** [main]: the texts, and the calls of the oracle *)

(** Lines 229-232: the queries of a text input are its lines, stripped. *)
Definition main_input_texts (lines : list string) : list string :=
  map strip lines.

(** A record of the manifest as [json.loads] returns it: a [dict] with
    string keys.  [A] is the type of its values. *)
Definition record (A : Type) : Type := list (string * A).

(** [d.get(k)]: [None] when the key is missing. *)
Fixpoint dict_get {A : Type} (d : record A) (k : string) : option A :=
  match d with
  | [] => None
  | (k', v) :: d' => if String.eqb k k' then Some v else dict_get d' k
  end.

(** [k in d]. *)
Definition dict_has {A : Type} (d : record A) (k : string) : bool :=
  match dict_get d k with
  | Some _ => true
  | None => false
  end.

(** What lines 235-238 can raise: [manifest[0]] on an empty manifest and
    [item[text_key]] on a record without the key. *)
Inductive manifest_error : Type :=
  | ManifestIndexError
  | ManifestKeyError (key : string).

(** Line 235: the key is chosen by looking at the first record only. *)
Definition main_text_key {A : Type} (manifest : list (record A))
  : manifest_error + string :=
  match manifest with
  | [] => inl ManifestIndexError
  | first :: _ =>
      inr (if dict_has first "pred_text" then "pred_text" else "text")
  end.

(** Lines 236-238. *)
Fixpoint manifest_texts_loop {A : Type} (text_key : string)
    (manifest : list (record A)) (texts : list A) : manifest_error + list A :=
  match manifest with
  | [] => inr texts
  | item :: rest =>
      match dict_get item text_key with
      | None => inl (ManifestKeyError text_key)
      | Some t => manifest_texts_loop text_key rest (texts ++ [t])
      end
  end.

(** Lines 235-238: the queries of a manifest input. *)
Definition main_manifest_texts {A : Type} (manifest : list (record A))
  : manifest_error + list A :=
  match main_text_key manifest with
  | inl e => inl e
  | inr text_key => manifest_texts_loop text_key manifest []
  end.

Section Oracle.

(** [model.translate] on one batch of segments, with the settings [main]
    passes. *)
Variable translate : list string -> list string.

(** Lines 253-262: the segments are handed to the oracle [batch_size] at a
    time and the answers are concatenated. *)
Definition main_translate (segments : list string) (batch_size : Z)
  : outcome (list string) :=
  starts <- range 0 (len segments) batch_size ;;
  Return (flat_map (fun i => translate (slice segments i (i + batch_size)))
            starts).

(** Lines 248-250: the beam search generator is built from [args.beam_size],
    [args.len_pen] and [args.max_delta_length]; what it is built from on the
    side of the model belongs to the oracle. *)
Definition main_beam_search_settings : outcome unit :=
  beam_size <- getattr_defined "beam_size" ;;
  len_pen <- getattr_defined "len_pen" ;;
  getattr_defined "max_delta_length".

(** Lines 239-265: from the texts to the value bound to [processed_texts].
    The stride handed to [split_into_segments] is [args.margin].  [fuel]
    bounds the passes of the [while] loop of [apply_autoregressive_labels]. *)
Definition main_processed_texts (fuel : nat) (args : Args) (texts : list string)
  : option (outcome py_value) :=
  match main_split_into_segments args texts with
  | None => None
  | Some (segments, query_indices, start_word_i) =>
      match (settings <- main_beam_search_settings ;;
             main_translate segments (batch_size args)) with
      | Raise e => Some (Raise e)
      | Return autoregressive_punctuation_labels =>
          apply_autoregressive_labels fuel texts
            autoregressive_punctuation_labels query_indices start_word_i
            (step args) (margin args) (capitalization_labels args)
      end
  end.

End Oracle.

(** ** Notions the properties are stated with *)

(** A string without whitespace. *)
Fixpoint no_space (s : string) : bool :=
  match s with
  | EmptyString => true
  | String c s' => negb (is_space c) && no_space s'
  end.

(** A word: what [str.split()] returns the elements of. *)
Definition is_word (w : string) : Prop :=
  is_empty w = false /\ no_space w = true.

(** The segment that starts at word [start] of its query and holds the
    words of [segment] contains the word index [k]. *)
Definition covers (start : Z) (segment : string) (k : Z) : bool :=
  (start <=? k) && (k <? start + len (split segment)).

(** The three parallel lists of [split_into_segments] as one list of
    (segment, owning query, start word). *)
Definition provenance (r : list string * list Z * list Z)
  : list (string * Z * Z) :=
  match r with
  | (segs, owners, starts) => zip (zip segs owners) starts
  end.

(** Word [k] of query [q_i] lies inside at least one emitted segment. *)
Definition covered (r : list string * list Z * list Z) (q_i k : Z) : bool :=
  existsb (fun e => match e with
                    | (seg, owner, start) => (owner =? q_i) && covers start seg k
                    end)
          (provenance r).

(** The start words of the segments of query [q_i], in emission order. *)
Definition starts_of (r : list string * list Z * list Z) (q_i : Z) : list Z :=
  map snd (filter (fun e => match e with
                            | (_, owner, _) => owner =? q_i
                            end)
                  (provenance r)).

(** The offsets [0, step, 2*step, ...] ([n] of them). *)
Fixpoint offsets (n : nat) (from step : Z) : list Z :=
  match n with
  | O => []
  | S n' => from :: offsets n' (from + step) step
  end.

(** What holds of the variables of [split_into_segments] at every point of a
    run with a positive stride: the start never goes below zero and every
    segment emitted so far is a full window. *)
Definition full_windows (max_seq_length : Z) (st : seg_state) : Prop :=
  0 <= segment_start st
  /\ Forall (fun seg => len (split seg) = max_seq_length) (segments st).

(** The segment recorded as [e] ends strictly before the last word of the
    query that owns it. *)
Definition ends_early (texts : list string) (e : string * Z * Z) : Prop :=
  match e with
  | (seg, owner, start) =>
      exists query,
        In (owner, query) (enumerate texts)
        /\ start + len (split seg) < len (split query)
  end.

(** What holds of the variables of [split_into_segments] besides
    [full_windows]: the three lists grow together and every recorded segment
    ends early. *)
Definition tails_open (texts : list string) (st : seg_state) : Prop :=
  List.length (segments st) = List.length (query_indices st)
  /\ List.length (query_indices st) = List.length (start_word_i st)
  /\ Forall (ends_early texts)
       (provenance (segments st, query_indices st, start_word_i st)).

(** The error carries the values of the parameters that break a check. *)
Definition reports_offending_values (e : parser_error) (args : Args) : Prop :=
  e = MaxSeqLengthNotPositive (max_seq_length args)
  \/ e = MarginStepCondition (max_seq_length args) (margin args) (step args).

(** No vote was cast in any counter of the list. *)
Definition no_votes (voting : list Counter) : Prop :=
  Forall (fun c => c = []) voting.

(** The segment recorded as [e] is the window of [max_seq_length] words cut
    at its start word from the query that owns it. *)
Definition cut_from (texts : list string) (max_seq_length : Z)
    (e : string * Z * Z) : Prop :=
  match e with
  | (seg, owner, start) =>
      exists query,
        In (owner, query) (enumerate texts)
        /\ seg = join " " (slice (split query) start (start + max_seq_length))
  end.

(** What holds of the variables of [split_into_segments] while the query
    with index [q_i] is read, whatever the window and the stride. *)
Definition well_formed (texts : list string) (max_seq_length step q_i : Z)
    (st : seg_state) : Prop :=
  List.length (segments st) = List.length (query_indices st)
  /\ List.length (query_indices st) = List.length (start_word_i st)
  /\ start_word_i st = offsets (List.length (start_word_i st)) 0 step
  /\ segment_start st = Z.of_nat (List.length (start_word_i st)) * step
  /\ Forall (cut_from texts max_seq_length)
       (provenance (segments st, query_indices st, start_word_i st))
  /\ StronglySorted Z.le (query_indices st)
  /\ Forall (fun owner => owner <= q_i) (query_indices st).

(** The number of characters of the list that belong to the class:
    [count_class] on a list of characters. *)
Fixpoint count_chars (cls : string) (l : list ascii) : Z :=
  match l with
  | [] => 0
  | c :: l' => (if char_in c cls then 1 else 0) + count_chars cls l'
  end.

(** An alphabet none of whose characters has a special meaning between the
    brackets of a regular expression (the caret, the hyphen, the closing
    bracket and the backslash): for such an alphabet the pattern built from
    it matches exactly its characters, which is what [count_class] counts. *)
Definition plain_class (cls : string) : bool :=
  negb (char_in "^"%char cls || char_in "-"%char cls || char_in "]"%char cls
        || char_in (ascii_of_nat 92) cls).

(** One label string is the other cut short at its end. *)
Definition same_up_to_end (a b : string) : Prop :=
  starts_with a b = true \/ starts_with b a = true.

(** The number of votes held by the counters of a list. *)
Definition votes_in (voting : list Counter) : Z :=
  fold_right (fun c acc => counter_total c + acc) 0 voting.

(** The number of votes cast so far for a query. *)
Definition votes_cast (t : tally) : Z :=
  votes_in (punctuation_voting t) + votes_in (capitalization_voting t).

(** ** Strings: [split] undoes [join] on words *)

Section Strings.

Local Open Scope string_scope.

Lemma append_empty_r (s : string) : s ++ "" = s.
Proof.
  induction s as [|c s IH]; simpl; [reflexivity | now rewrite IH].
Qed.

Lemma append_assoc (a b c : string) : (a ++ b) ++ c = a ++ (b ++ c).
Proof.
  induction a as [|x a IH]; simpl; [reflexivity | now rewrite IH].
Qed.

Lemma is_empty_append (a b : string) :
  is_empty a = false -> is_empty (a ++ b) = false.
Proof. destruct a; simpl; congruence. Qed.

Lemma no_space_append (a b : string) :
  no_space (a ++ b) = no_space a && no_space b.
Proof.
  induction a as [|x a IH]; simpl; [reflexivity|].
  rewrite IH. now rewrite andb_assoc.
Qed.

Lemma split_from_word (w : string) :
  forall cur s, no_space w = true ->
    split_from cur (w ++ s) = split_from (cur ++ w) s.
Proof.
  induction w as [|c w IH]; intros cur s Hw; simpl in *.
  - now rewrite append_empty_r.
  - apply andb_prop in Hw as [Hc Hw].
    apply negb_true_iff in Hc. rewrite Hc.
    rewrite IH by assumption.
    unfold snoc. rewrite append_assoc. reflexivity.
Qed.

Lemma split_join (ws : list string) :
  Forall is_word ws -> split (join " " ws) = ws.
Proof.
  unfold split.
  induction ws as [|w ws IH]; intros Hall; [reflexivity|].
  inversion Hall as [|? ? [Hne Hns] Hrest]; subst.
  destruct ws as [|w2 ws].
  - simpl. rewrite <- (append_empty_r w) at 1.
    rewrite split_from_word by assumption. simpl. now rewrite Hne.
  - change (join " " (w :: w2 :: ws))
      with (w ++ (String " " (join " " (w2 :: ws)))).
    rewrite split_from_word by assumption.
    cbn [append split_from]. change (is_space " ") with true. cbn iota.
    rewrite Hne. f_equal. apply IH. assumption.
Qed.

Lemma split_from_words (s : string) :
  forall cur, no_space cur = true -> Forall is_word (split_from cur s).
Proof.
  induction s as [|c s IH]; intros cur Hcur; simpl.
  - destruct (is_empty cur) eqn:E; constructor; [|constructor]. now split.
  - destruct (is_space c) eqn:Hc.
    + destruct (is_empty cur) eqn:E.
      * now apply IH.
      * constructor; [now split | now apply IH].
    + apply IH. unfold snoc. rewrite no_space_append, Hcur. simpl.
      now rewrite Hc.
Qed.

Lemma split_words (s : string) : Forall is_word (split s).
Proof. now apply split_from_words. Qed.

End Strings.

(** ** Slices *)

Lemma Forall_firstn {A : Type} (P : A -> Prop) (n : nat) (l : list A) :
  Forall P l -> Forall P (firstn n l).
Proof.
  intros H. rewrite <- (firstn_skipn n l) in H.
  now apply Forall_app in H.
Qed.

Lemma Forall_skipn {A : Type} (P : A -> Prop) (n : nat) (l : list A) :
  Forall P l -> Forall P (skipn n l).
Proof.
  intros H. rewrite <- (firstn_skipn n l) in H.
  now apply Forall_app in H.
Qed.

Lemma Forall_slice {A : Type} (P : A -> Prop) (l : list A) (a b : Z) :
  Forall P l -> Forall P (slice l a b).
Proof.
  intros H. unfold slice. now apply Forall_firstn, Forall_skipn.
Qed.

Lemma slice_window_length {A : Type} (l : list A) (a n : Z) :
  0 <= a -> 0 < n -> a + n < len l -> len (slice l a (a + n)) = n.
Proof.
  intros Ha Hn Hlt. unfold slice, clamp, len in *.
  destruct (a <? 0) eqn:E1; [apply Z.ltb_lt in E1; lia|].
  destruct (a + n <? 0) eqn:E2; [apply Z.ltb_lt in E2; lia|].
  rewrite length_firstn, length_skipn. lia.
Qed.

(** ** [split_into_segments]: the loop and what it emits *)

Section Segmenter.

Variables max_seq_length step : Z.

Lemma emit_window_full (words : list string) (q_i : Z) (st : seg_state) :
  0 < max_seq_length -> 0 < step ->
  Forall is_word words ->
  segment_start st + max_seq_length < len words ->
  full_windows max_seq_length st ->
  full_windows max_seq_length (emit_window words q_i max_seq_length step st).
Proof.
  intros Hmax Hstep Hwords Hcond [Hstart Hsegs].
  split; simpl; [lia|].
  apply Forall_app. split; [assumption|].
  constructor; [|constructor].
  rewrite split_join by now apply Forall_slice.
  now apply slice_window_length.
Qed.

(** With a positive stride the loop ends, within the fuel that
    [window_fuel] computes. *)
Lemma while_window_enough (words : list string) (q_i : Z) :
  0 < max_seq_length -> 0 < step ->
  Forall is_word words ->
  forall fuel st,
    len words - (segment_start st + max_seq_length) <= Z.of_nat fuel ->
    full_windows max_seq_length st ->
    exists st',
      while_window fuel words q_i max_seq_length step st = Some st'
      /\ full_windows max_seq_length st'.
Proof.
  intros Hmax Hstep Hwords.
  induction fuel as [|fuel IH]; intros st Hfuel Hinv; simpl;
    destruct (segment_start st + max_seq_length <? len words) eqn:Hc;
    try (exists st; now split).
  - apply Z.ltb_lt in Hc. lia.
  - apply Z.ltb_lt in Hc. apply IH.
    + simpl. lia.
    + now apply emit_window_full.
Qed.

(** With a stride that is not positive the loop, once entered, is never
    left: no amount of fuel is enough. *)
Lemma while_window_diverges (words : list string) (q_i : Z) :
  step <= 0 ->
  forall fuel st,
    segment_start st + max_seq_length < len words ->
    while_window fuel words q_i max_seq_length step st = None.
Proof.
  intros Hstep.
  induction fuel as [|fuel IH]; intros st Hc; simpl;
    destruct (segment_start st + max_seq_length <? len words) eqn:E;
    try reflexivity; try (apply Z.ltb_ge in E; lia).
  apply IH. simpl. lia.
Qed.

Lemma for_queries_full (qs : list (Z * string)) :
  0 < max_seq_length -> 0 < step ->
  forall st, full_windows max_seq_length st ->
    exists st',
      for_queries qs max_seq_length step st = Some st'
      /\ full_windows max_seq_length st'.
Proof.
  intros Hmax Hstep.
  induction qs as [|[q_i query] qs IH]; intros st Hinv; simpl.
  - exists st. now split.
  - destruct (while_window_enough (split query) q_i Hmax Hstep
                (split_words query)
                (window_fuel (split query) max_seq_length st) st)
      as [st' [Hrun Hinv']]; [unfold window_fuel; lia | assumption |].
    rewrite Hrun. now apply IH.
Qed.

(** A query that is not longer than the window leaves the state as it
    is: the loop body is not entered. *)
Lemma while_window_short (words : list string) (q_i : Z) (fuel : nat)
    (st : seg_state) :
  len words <= segment_start st + max_seq_length ->
  while_window fuel words q_i max_seq_length step st = Some st.
Proof.
  intros H. destruct fuel; simpl;
    destruct (segment_start st + max_seq_length <? len words) eqn:E;
    try reflexivity; apply Z.ltb_lt in E; lia.
Qed.

End Segmenter.

(** ** [split_into_segments]: properties *)

(** C10.  For every list of texts and every positive [max_seq_length] and
    [step], [split_into_segments] returns, and every segment string it
    emits holds exactly [max_seq_length] whitespace-delimited words: no
    shorter window is ever emitted. *)
Theorem split_into_segments_full_windows
    (texts : list string) (max_seq_length step : Z) :
  0 < max_seq_length -> 0 < step ->
  exists segs owners starts,
    split_into_segments texts max_seq_length step = Some (segs, owners, starts)
    /\ Forall (fun seg => len (split seg) = max_seq_length) segs.
Proof.
  intros Hmax Hstep. unfold split_into_segments.
  destruct (for_queries_full max_seq_length step (enumerate texts) Hmax Hstep
              (mkSegState [] [] [] 0)) as [st [Hrun [_ Hsegs]]].
  - split; simpl; [lia | constructor].
  - rewrite Hrun.
    exists (segments st), (query_indices st), (start_word_i st).
    now split.
Qed.

Lemma split_into_segments_full_windows_witness :
  exists segs owners starts,
    split_into_segments ["a b c d e"; "x y z"] 2 1 = Some (segs, owners, starts)
    /\ Forall (fun seg => len (split seg) = 2) segs.
Proof.
  apply (split_into_segments_full_windows ["a b c d e"; "x y z"] 2 1); lia.
Defined.

(** Queries that are not longer than the window yield no segment at all,
    whatever the stride. *)
Lemma for_queries_short (max_seq_length step : Z) (qs : list (Z * string)) :
  Forall (fun q => len (split (snd q)) <= max_seq_length) qs ->
  for_queries qs max_seq_length step (mkSegState [] [] [] 0)
  = Some (mkSegState [] [] [] 0).
Proof.
  induction qs as [|[q_i query] qs IH]; intros Hall; simpl; [reflexivity|].
  inversion Hall as [|? ? Hq Hrest]; subst. simpl in Hq.
  rewrite while_window_short by (simpl; lia).
  now apply IH.
Qed.

Lemma short_query_no_segment (query : string) (max_seq_length step : Z) :
  len (split query) <= max_seq_length ->
  split_into_segments [query] max_seq_length step = Some ([], [], []).
Proof.
  intros H. unfold split_into_segments, enumerate. simpl enumerate_from.
  rewrite for_queries_short; [reflexivity|].
  constructor; [assumption | constructor].
Qed.

(** C2.  The query ["the cat"] has two words, fewer than a
    [max_seq_length] of three, and [split_into_segments] emits no segment
    for it, where the claim asks for one segment holding the two words. *)
Theorem short_query_emits_nothing :
  split "the cat" = ["the"; "cat"]
  /\ len (split "the cat") < 3
  /\ split_into_segments ["the cat"] 3 1 = Some ([], [], []).
Proof. repeat split. Qed.

(** *** No segment reaches the end of its query *)

Lemma zip_snoc {A B : Type} (xs : list A) (ys : list B) (x : A) (y : B) :
  List.length xs = List.length ys ->
  zip (xs ++ [x]) (ys ++ [y]) = zip xs ys ++ [(x, y)].
Proof.
  revert ys. unfold zip.
  induction xs as [|a xs IH]; intros [|b ys] Hlen; simpl in *;
    try discriminate; [reflexivity|].
  rewrite IH by congruence. reflexivity.
Qed.

Lemma length_zip {A B : Type} (xs : list A) (ys : list B) :
  List.length xs = List.length ys -> List.length (zip xs ys) = List.length xs.
Proof.
  revert ys. unfold zip.
  induction xs as [|a xs IH]; intros [|b ys] Hlen; simpl in *;
    try discriminate; [reflexivity|].
  rewrite IH by congruence. reflexivity.
Qed.

Lemma enumerate_from_lower {A : Type} (l : list A) :
  forall k i a, In (i, a) (enumerate_from k l) -> k <= i.
Proof.
  induction l as [|x l IH]; intros k i a Hin; simpl in Hin; [contradiction|].
  destruct Hin as [Heq | Hin].
  - injection Heq as <- _. lia.
  - apply IH in Hin. lia.
Qed.

(** An index names one element. *)
Lemma enumerate_from_functional {A : Type} (l : list A) :
  forall k i a b,
    In (i, a) (enumerate_from k l) -> In (i, b) (enumerate_from k l) -> a = b.
Proof.
  induction l as [|x l IH]; intros k i a b Ha Hb; simpl in *; [contradiction|].
  destruct Ha as [Ha | Ha], Hb as [Hb | Hb].
  - congruence.
  - injection Ha as <- _. apply enumerate_from_lower in Hb. lia.
  - injection Hb as <- _. apply enumerate_from_lower in Ha. lia.
  - eapply IH; eassumption.
Qed.

Section TailsOpen.

Variables (texts : list string) (max_seq_length step : Z).
Hypothesis max_positive : 0 < max_seq_length.
Hypothesis step_positive : 0 < step.

Lemma emit_window_tails (q_i : Z) (query : string) (st : seg_state) :
  In (q_i, query) (enumerate texts) ->
  segment_start st + max_seq_length < len (split query) ->
  full_windows max_seq_length st ->
  tails_open texts st ->
  tails_open texts (emit_window (split query) q_i max_seq_length step st).
Proof.
  intros Hin Hcond [Hstart _] (Hl1 & Hl2 & Hall).
  unfold tails_open, provenance, emit_window in *.
  cbn [segments query_indices start_word_i] in *.
  rewrite !length_app. cbn [List.length]. repeat split; try lia.
  rewrite (zip_snoc (segments st)) by assumption.
  rewrite zip_snoc by (rewrite length_zip; congruence).
  apply Forall_app. split; [assumption|].
  constructor; [|constructor].
  exists query. split; [assumption|].
  rewrite split_join by (apply Forall_slice, split_words).
  rewrite slice_window_length by assumption. assumption.
Qed.

Lemma while_window_tails (q_i : Z) (query : string) :
  In (q_i, query) (enumerate texts) ->
  forall fuel st st',
    while_window fuel (split query) q_i max_seq_length step st = Some st' ->
    full_windows max_seq_length st ->
    tails_open texts st ->
    full_windows max_seq_length st' /\ tails_open texts st'.
Proof.
  intros Hin.
  induction fuel as [|fuel IH]; intros st st' Hrun Hfull Htails;
    simpl in Hrun;
    destruct (segment_start st + max_seq_length <? len (split query)) eqn:Hc;
    try discriminate; try (injection Hrun as <-; now split).
  apply Z.ltb_lt in Hc.
  apply (IH _ _ Hrun).
  - apply emit_window_full; auto using split_words.
  - now apply emit_window_tails.
Qed.

Lemma for_queries_tails (qs : list (Z * string)) :
  incl qs (enumerate texts) ->
  forall st st',
    for_queries qs max_seq_length step st = Some st' ->
    full_windows max_seq_length st ->
    tails_open texts st ->
    tails_open texts st'.
Proof.
  induction qs as [|[q_i query] qs IH]; intros Hincl st st' Hrun Hfull Htails;
    simpl in Hrun.
  - now injection Hrun as <-.
  - destruct (while_window _ _ _ _ _ st) as [st1|] eqn:Hw; [|discriminate].
    destruct (while_window_tails q_i query (Hincl _ (or_introl eq_refl))
                _ _ _ Hw Hfull Htails) as [Hfull1 Htails1].
    apply (IH (fun e He => Hincl e (or_intror He)) _ _ Hrun Hfull1 Htails1).
Qed.

(** X8.  With a positive window and a positive stride, whatever the texts,
    the last word of a query lies in none of the segments that
    [split_into_segments] returns. *)
Lemma last_word_never_covered (r : list string * list Z * list Z)
    (q_i : Z) (query : string) :
  split_into_segments texts max_seq_length step = Some r ->
  In (q_i, query) (enumerate texts) ->
  covered r q_i (len (split query) - 1) = false.
Proof.
  unfold split_into_segments. intros Hrun Hin.
  destruct (for_queries _ _ _ _) as [st|] eqn:Hfor; [|discriminate].
  injection Hrun as <-.
  assert (Htails : tails_open texts st).
  { apply (for_queries_tails (enumerate texts) (incl_refl _) _ _ Hfor).
    - split; simpl; [lia | constructor].
    - repeat split; simpl; constructor. }
  destruct Htails as (_ & _ & Hall).
  destruct (covered _ _ _) eqn:Hcov; [|reflexivity].
  unfold covered in Hcov. apply existsb_exists in Hcov.
  destruct Hcov as [[[seg owner] start] [He Htest]].
  rewrite Forall_forall in Hall. specialize (Hall _ He).
  destruct Hall as [query' [Hin' Hend]].
  apply andb_prop in Htest as [Hown Hcov]. apply Z.eqb_eq in Hown. subst owner.
  assert (query' = query)
    by (eapply enumerate_from_functional; eassumption).
  subst query'. unfold covers in Hcov.
  apply andb_prop in Hcov as [_ Hlt]. apply Z.ltb_lt in Hlt. lia.
Qed.

End TailsOpen.

(** C3.  With [max_seq_length = 2], [step = 1] and [margin = 0] (a
    configuration with [max_seq_length - 2 * margin >= step]) the query
    ["a b c"] gets the single segment ["a b"] starting at word 0: word
    index 2 lies in no emitted segment. *)
Theorem tail_word_not_covered :
  2 - 2 * 0 >= 1
  /\ len (split "a b c") = 3
  /\ split_into_segments ["a b c"] 2 1 = Some (["a b"], [0], [0])
  /\ covered (["a b"], [0], [0]) 0 2 = false.
Proof. repeat split; intro H; discriminate H. Qed.

(** C4.  [segment_start] is not set back to [0] when the next query
    starts: the second of two queries gets a first segment at word 2.  And
    [main] passes [margin] where [step] is expected: with [step = 1] and
    [margin = 2] the starts are two words apart. *)
Theorem segment_starts_not_restarted :
  let r := (["a b"; "b c"; "c d"], [0; 0; 1], [0; 1; 2]) in
  let args := mkArgs None (Some "in.txt") None (Some "out.txt") None
                6 1 2 128 "OuU" in
  split_into_segments ["a b c d"; "a b c d e"] 2 1 = Some r
  /\ starts_of r 0 = offsets 2 0 1
  /\ starts_of r 1 = [2]
  /\ main_split_into_segments args ["a b c d e f g h i j"]
     = Some (["a b c d e f"; "c d e f g h"], [0; 0], [0; 2])
  /\ split_into_segments ["a b c d e f g h i j"] 6 (step args)
     = Some (["a b c d e f"; "b c d e f g"; "c d e f g h"; "d e f g h i"],
             [0; 0; 0; 0], [0; 1; 2; 3]).
Proof. repeat split. Qed.

(** ** [adjust_predicted_labels_length]: properties *)

Lemma length_chars (s : string) :
  List.length (list_ascii_of_string s) = String.length s.
Proof.
  induction s as [|c s IH]; simpl; [reflexivity | now rewrite IH].
Qed.

(** The loop of lines 164-167 never runs out of passes while [labels[pos]]
    is still inside the string: when none is left, [pos] is below
    [-len(labels)] and the next read raises [IndexError]. *)
Lemma str_index_below (labels : string) (pos : Z) :
  pos < - strlen labels -> str_index labels pos = Raise IndexError.
Proof.
  intros H. unfold str_index, index, strlen, len in *.
  rewrite length_chars.
  destruct (pos <? 0) eqn:E; [|apply Z.ltb_ge in E; lia].
  destruct (pos + Z.of_nat (String.length labels) <? 0) eqn:E2;
    [reflexivity | apply Z.ltb_ge in E2; lia].
Qed.

(** C5.  The segment ["hello world"] has two words; its label string
    ["O"] holds one capitalization tag.  The number of tags is counted in the
    segment text (none there), so two tags are appended and the result holds
    three tags, not two. *)
Theorem aligned_tag_count_differs :
  len (split "hello world") = 2
  /\ count_class "OuU" "O" = 1
  /\ adjust_predicted_labels_length ["hello world"] ["O"] "OuU"
     = Return ["O O O "]
  /\ count_class "OuU" "O O O " = 3.
Proof. repeat split. Qed.

(** C6.  The segment ["unusual"] is one word and its label string ["O "]
    holds one capitalization tag, yet the label string is not returned as it
    is: the three letters [u] of the segment are counted as tags and the
    label string is cut down to the empty string.  Likewise the aligned
    ["O O"] of ["hello world"] is lengthened. *)
Theorem aligned_labels_not_kept :
  len (split "unusual") = 1
  /\ count_class "OuU" "O " = 1
  /\ adjust_predicted_labels_length ["unusual"] ["O "] "OuU" = Return [""]
  /\ len (split "hello world") = 2
  /\ count_class "OuU" "O O" = 2
  /\ adjust_predicted_labels_length ["hello world"] ["O O"] "OuU"
     = Return ["O O O O "].
Proof. repeat split. Qed.

(** ** [apply_autoregressive_labels]: the first field of a segment *)

Lemma starts_with_in (p s : string) : starts_with p s = true -> str_in p s = true.
Proof. intros H. destruct s; simpl; rewrite H; reflexivity. Qed.

(** The first piece [s.split(sep)] returns is [cur] followed by a prefix of
    [s]. *)
Lemma split_on_from_head (sep : string) (s : string) :
  forall cur, exists p rest,
    split_on_from sep O cur s = (cur ++ p)%string :: rest
    /\ starts_with p s = true.
Proof.
  induction s as [|c s IH]; intros cur.
  - exists EmptyString, []. simpl. now rewrite append_empty_r.
  - cbn [split_on_from].
    destruct (starts_with sep (String c s)).
    + exists EmptyString. eexists. rewrite append_empty_r. now split.
    + destruct (IH (snoc cur c)) as [p [rest [Heq Hp]]].
      exists (String c p), rest. split.
      * rewrite Heq. unfold snoc. now rewrite append_assoc.
      * simpl. now rewrite Ascii.eqb_refl.
Qed.

(** Every split of the label alphabet starts with a piece that occurs in
    the alphabet. *)
Lemma split_on_head_in (caps sep : string) (labels : list string) :
  split_on caps sep = Return labels ->
  exists lbl rest, labels = lbl :: rest /\ str_in lbl caps = true.
Proof.
  unfold split_on. destruct (is_empty sep); [discriminate|].
  intros H. injection H as <-.
  destruct (split_on_from_head sep caps EmptyString) as [p [rest [Heq Hp]]].
  exists p, rest. split; [exact Heq | now apply starts_with_in].
Qed.

(** For the segment at index 0 the body of the [while] loop either raises or
    leaves the vote arrays as they were: the field at position 0 is either
    the place of the [break] or fails the assertion of line 208. *)
Lemma segment_body_first (segment_autoregressive_labels : list string)
    (step margin : Z) (caps : string) (num_words : Z) (t : tally) :
  segment_body segment_autoregressive_labels step margin caps num_words 0 t
    = Return t
  \/ exists e,
       segment_body segment_autoregressive_labels step margin caps num_words 0 t
       = Raise e.
Proof.
  unfold segment_body.
  destruct (index segment_autoregressive_labels 0) as [seg|e]; simpl;
    [|right; now exists e].
  destruct (split_on caps seg) as [labels|e] eqn:Hs; simpl;
    [|right; now exists e].
  destruct (split_on_head_in _ _ _ Hs) as [lbl [rest [-> Hin]]].
  unfold enumerate. cbn [enumerate_from for_fields].
  unfold field_step. rewrite Hin.
  change (0 <? 0) with false. cbn [andb].
  match goal with
  | |- context [if ?b then Return (Stopped, _, _) else _] => destruct b
  end; simpl.
  - now left.
  - right. now exists AssertionError.
Qed.

(** Once the [while] loop is entered (the first owner recorded is the
    current query) it is never left normally: the body raises, or the loop
    runs forever. *)
Lemma while_segments_first (segment_autoregressive_labels : list string)
    (query_indices : list Z) (step margin : Z) (caps : string)
    (q_i num_words : Z) :
  index query_indices 0 = Return q_i ->
  forall fuel t,
    while_segments fuel segment_autoregressive_labels query_indices step
      margin caps q_i num_words 0 t = None
    \/ exists e,
         while_segments fuel segment_autoregressive_labels query_indices step
           margin caps q_i num_words 0 t = Some (Raise e).
Proof.
  intros Hown.
  induction fuel as [|fuel IH]; intros t; simpl; rewrite Hown, Z.eqb_refl.
  - now left.
  - destruct (segment_body_first segment_autoregressive_labels step margin
                caps num_words t) as [-> | [e ->]].
    + apply IH.
    + right. now exists e.
Qed.

(** X27. Whenever the accumulation of a query comes to an end, not one
    vote has been cast: every counter of the two vote arrays is empty. *)
Lemma accumulate_query_no_votes (fuel : nat)
    (segment_autoregressive_labels : list string) (query_indices : list Z)
    (step margin : Z) (caps : string) (q_i : Z) (query : string) (t : tally) :
  accumulate_query fuel segment_autoregressive_labels query_indices step
    margin caps q_i query = Some (Return t) ->
  no_votes (punctuation_voting t) /\ no_votes (capitalization_voting t).
Proof.
  unfold accumulate_query.
  set (t0 := mkTally _ _).
  assert (Hempty : no_votes (punctuation_voting t0)
                   /\ no_votes (capitalization_voting t0)).
  { split; apply Forall_forall; intros c Hc; simpl in Hc;
      unfold fresh_counters in Hc; now apply repeat_spec in Hc. }
  destruct (index query_indices 0) as [owner|e] eqn:Hown.
  - destruct (owner =? q_i) eqn:Heq.
    + apply Z.eqb_eq in Heq. subst owner.
      destruct (while_segments_first segment_autoregressive_labels
                  query_indices step margin caps q_i (len (split query))
                  Hown fuel t0) as [-> | [e ->]]; discriminate.
    + destruct fuel; simpl; rewrite Hown, Heq; intros H;
        injection H as <-; exact Hempty.
  - destruct fuel; simpl; rewrite Hown; discriminate.
Qed.

(** ** [apply_autoregressive_labels]: properties *)

(** When the first owner recorded is the first query, a call on a
    non-empty list of queries never returns: it raises or runs forever. *)
Lemma apply_first_query_never_returns (fuel : nat) (query : string)
    (queries segment_autoregressive_labels : list string)
    (query_indices start_word_i : list Z) (step margin : Z) (caps : string) :
  index query_indices 0 = Return 0 ->
  apply_autoregressive_labels fuel (query :: queries)
    segment_autoregressive_labels query_indices start_word_i step margin caps
    = None
  \/ exists e,
       apply_autoregressive_labels fuel (query :: queries)
         segment_autoregressive_labels query_indices start_word_i step margin
         caps = Some (Raise e).
Proof.
  intros Hown. unfold apply_autoregressive_labels.
  destruct (re_compile_class caps) as [cls|e]; [|right; now exists e].
  unfold enumerate. cbn [enumerate_from for_each_query].
  unfold accumulate_query.
  destruct (while_segments_first segment_autoregressive_labels query_indices
              step margin cls 0 (len (split query)) Hown fuel
              (mkTally (fresh_counters (len (split query) + 1))
                       (fresh_counters (len (split query)))))
    as [-> | [e ->]].
  - now left.
  - right. now exists e.
Qed.

(** C1.  No call of [apply_autoregressive_labels] evaluates to a list:
    the function has no [return] statement.  On no queries at all it
    evaluates to [None] where the empty list is expected, and on the query
    ["a b c"] with its one segment it raises [AssertionError]. *)
Theorem apply_autoregressive_labels_returns_no_list :
  (forall fuel queries segment_autoregressive_labels query_indices
          start_word_i step margin caps l,
      apply_autoregressive_labels fuel queries segment_autoregressive_labels
        query_indices start_word_i step margin caps
      <> Some (Return (PyList l)))
  /\ apply_autoregressive_labels 1 [] [] [] [] 8 16 "OuU" = Some (Return PyNone)
  /\ split_into_segments ["a b c"] 2 1 = Some (["a b"], [0], [0])
  /\ forall fuel,
       apply_autoregressive_labels (S fuel) ["a b c"] ["O O "] [0] [0] 1 0 "OuU"
       = Some (Raise AssertionError).
Proof.
  split; [|repeat split].
  intros fuel queries labels owners starts step margin caps l.
  unfold apply_autoregressive_labels.
  destruct (re_compile_class caps); [|discriminate].
  destruct (for_each_query _ _ _ _ _ _ _) as [[[]|e]|]; discriminate.
Qed.

(** C7.  The query ["hello world"] is covered by one segment whose labels
    ["O U "] give the tag [U] to word 1.  The accumulation does not end with
    one vote for [U] at index 1: it raises [AssertionError] at the first
    field, before any vote is cast. *)
Theorem single_segment_vote_not_recorded :
  len (split "hello world") = 2
  /\ count_class "OuU" "O U " = 2
  /\ split_on "OuU" "O U " = Return ["OuU"]
  /\ forall fuel,
       accumulate_query (S fuel) ["O U "] [0] 1 0 "OuU" 0 "hello world"
       = Some (Raise AssertionError).
Proof. repeat split. Qed.

(** ** The margin rules of the loop over the fields *)





(** In the first segment of a query, with no margin, the field of a word
    casts its one vote. *)
Example field_step_counts :
  field_step "OuU" 0 0 true 2 0 (mkTally [[]; []; []] [[]; []]) 3 "U"
  = Return (Counted, 1, mkTally [[]; []; []] [[]; [("U", 1)]]).
Proof. reflexivity. Qed.

(** ** [get_args]: properties *)

(** C9.  [get_args] never gets as far as its checks: the option
    [--capitalization_labels] is added with the keyword [defalt] (line 105),
    which [add_argument] turns down with [TypeError], whatever the command
    line.  A configuration with [max_seq_length = 0], which the check of
    line 112 would report with its value, ends in that [TypeError]; so does
    the default configuration, which passes every check. *)
Theorem get_args_raises_type_error :
  (forall expanduser args, get_args expanduser args = Raise TypeError)
  /\ (let args := mkArgs None (Some "in.txt") None (Some "out.txt") None
                    0 8 16 128 "OuU" in
      max_seq_length args <= 0
      /\ get_args_checks (fun p => p) args = inl (MaxSeqLengthNotPositive 0)
      /\ reports_offending_values (MaxSeqLengthNotPositive 0) args
      /\ get_args (fun p => p) args = Raise TypeError)
  /\ (let args := mkArgs None (Some "in.txt") None (Some "out.txt") None
                    64 8 16 128 "OuU" in
      get_args_checks (fun p => p) args = inr args
      /\ get_args (fun p => p) args = Raise TypeError).
Proof.
  split; [intros expanduser args; reflexivity|].
  split; cbv zeta; repeat split.
  - simpl. lia.
  - now left.
Qed.

(** * Further properties *)

(** ** [split_into_segments]: the shape of the result *)

Lemma offsets_snoc (n : nat) :
  forall from step,
    offsets (S n) from step = offsets n from step ++ [from + Z.of_nat n * step].
Proof.
  induction n as [|n IH]; intros from step.
  - simpl. f_equal. lia.
  - change (offsets (S (S n)) from step)
      with (from :: offsets (S n) (from + step) step).
    rewrite IH.
    replace (from + Z.of_nat (S n) * step)
      with (from + step + Z.of_nat n * step) by lia.
    reflexivity.
Qed.

Lemma StronglySorted_snoc (l : list Z) (x : Z) :
  StronglySorted Z.le l -> Forall (fun y => y <= x) l ->
  StronglySorted Z.le (l ++ [x]).
Proof.
  induction l as [|y l IH]; intros Hs Hle; simpl.
  - repeat constructor.
  - inversion Hs as [|? ? Hs' Hy]; subst.
    inversion Hle as [|? ? Hyx Hle']; subst.
    constructor; [now apply IH|].
    apply Forall_app. split; [assumption | now repeat constructor].
Qed.

Section Shape.

Variables (texts : list string) (max_seq_length step : Z).

Lemma emit_window_well_formed (q_i : Z) (query : string) (st : seg_state) :
  In (q_i, query) (enumerate texts) ->
  well_formed texts max_seq_length step q_i st ->
  well_formed texts max_seq_length step q_i
    (emit_window (split query) q_i max_seq_length step st).
Proof.
  intros Hin (Hl1 & Hl2 & Hoff & Hstart & Hcut & Hsorted & Hle).
  unfold well_formed, provenance, emit_window in *.
  cbn [segments query_indices start_word_i segment_start] in *.
  rewrite !length_app. cbn [List.length].
  repeat split; try lia.
  - rewrite Nat.add_1_r, offsets_snoc, <- Hoff, Hstart. reflexivity.
  - rewrite (zip_snoc (segments st)) by assumption.
    rewrite zip_snoc by (rewrite length_zip; congruence).
    apply Forall_app. split; [assumption|].
    constructor; [|constructor]. exists query. now split.
  - now apply StronglySorted_snoc.
  - apply Forall_app. split; [assumption|].
    constructor; [lia | constructor].
Qed.

Lemma while_window_well_formed (q_i : Z) (query : string) :
  In (q_i, query) (enumerate texts) ->
  forall fuel st st',
    while_window fuel (split query) q_i max_seq_length step st = Some st' ->
    well_formed texts max_seq_length step q_i st ->
    well_formed texts max_seq_length step q_i st'.
Proof.
  intros Hin.
  induction fuel as [|fuel IH]; intros st st' Hrun Hwf; simpl in Hrun;
    destruct (segment_start st + max_seq_length <? len (split query));
    try discriminate; try (now injection Hrun as <-).
  apply (IH _ _ Hrun). now apply emit_window_well_formed.
Qed.

Lemma well_formed_next (q_i : Z) (st : seg_state) :
  well_formed texts max_seq_length step q_i st ->
  well_formed texts max_seq_length step (q_i + 1) st.
Proof.
  intros (Hl1 & Hl2 & Hoff & Hstart & Hcut & Hsorted & Hle).
  repeat split; try assumption.
  eapply Forall_impl; [|exact Hle]. simpl. intros; lia.
Qed.

Lemma for_queries_well_formed (rest : list string) :
  forall q_i st st',
    incl (enumerate_from q_i rest) (enumerate texts) ->
    for_queries (enumerate_from q_i rest) max_seq_length step st = Some st' ->
    well_formed texts max_seq_length step q_i st ->
    exists q_j, well_formed texts max_seq_length step q_j st'.
Proof.
  induction rest as [|query rest IH]; intros q_i st st' Hincl Hrun Hwf;
    simpl in Hrun.
  - injection Hrun as <-. now exists q_i.
  - destruct (while_window _ _ _ _ _ st) as [st1|] eqn:Hw; [|discriminate].
    apply (IH (q_i + 1) st1 st').
    + intros e He. apply Hincl. now right.
    + exact Hrun.
    + apply well_formed_next.
      apply (while_window_well_formed q_i query
               (Hincl _ (or_introl eq_refl)) _ _ _ Hw Hwf).
Qed.

Lemma split_into_segments_well_formed (segs : list string)
    (owners starts : list Z) :
  split_into_segments texts max_seq_length step = Some (segs, owners, starts) ->
  exists q_j,
    well_formed texts max_seq_length step q_j (mkSegState segs owners starts
                                                 (Z.of_nat (List.length starts) * step)).
Proof.
  unfold split_into_segments. intros Hrun.
  destruct (for_queries _ _ _ _) as [st|] eqn:Hfor; [|discriminate].
  injection Hrun as <- <- <-.
  destruct (for_queries_well_formed texts 0 _ st (incl_refl _) Hfor)
    as [q_j Hwf].
  - repeat split; simpl; constructor.
  - exists q_j.
    destruct Hwf as (Hl1 & Hl2 & Hoff & Hstart & Hcut & Hsorted & Hle).
    repeat split; assumption.
Qed.

End Shape.

Lemma enumerate_from_nth {A : Type} (l : list A) :
  forall k i a,
    In (i, a) (enumerate_from k l) ->
    k <= i /\ nth_error l (Z.to_nat (i - k)) = Some a.
Proof.
  induction l as [|x l IH]; intros k i a Hin; simpl in Hin; [contradiction|].
  destruct Hin as [Heq | Hin].
  - injection Heq as <- <-. split; [lia|]. now rewrite Z.sub_diag.
  - apply IH in Hin as [Hle Hnth]. split; [lia|].
    replace (Z.to_nat (i - k)) with (S (Z.to_nat (i - (k + 1)))) by lia.
    exact Hnth.
Qed.

(** X1.  The three lists [split_into_segments] returns have the same
    length: every segment has its owning query and its start word. *)
Theorem split_into_segments_parallel (texts : list string)
    (max_seq_length step : Z) (segs : list string) (owners starts : list Z) :
  split_into_segments texts max_seq_length step = Some (segs, owners, starts) ->
  List.length segs = List.length owners
  /\ List.length owners = List.length starts.
Proof.
  intros Hrun.
  destruct (split_into_segments_well_formed _ _ _ _ _ _ Hrun)
    as [q_j (Hl1 & Hl2 & _)].
  now split.
Qed.

Lemma split_into_segments_parallel_witness :
  List.length ["a b"; "b c"; "c d"] = List.length [0; 0; 1]
  /\ List.length [0; 0; 1] = List.length [0; 1; 2].
Proof.
  exact (split_into_segments_parallel ["a b c d"; "a b c d e"] 2 1
           _ _ _ eq_refl).
Defined.

(** X2.  The start words [split_into_segments] returns are
    [0, step, 2*step, ...] over the whole result: the progression runs on
    across the queries. *)
Theorem split_into_segments_starts (texts : list string)
    (max_seq_length step : Z) (segs : list string) (owners starts : list Z) :
  split_into_segments texts max_seq_length step = Some (segs, owners, starts) ->
  starts = offsets (List.length starts) 0 step.
Proof.
  intros Hrun.
  destruct (split_into_segments_well_formed _ _ _ _ _ _ Hrun)
    as [q_j (_ & _ & Hoff & _)].
  exact Hoff.
Qed.

Lemma split_into_segments_starts_witness :
  [0; 3; 6] = offsets (List.length [0; 3; 6]) 0 3.
Proof.
  exact (split_into_segments_starts ["a b c d e f"; "a b c d e f g h i"] 2 3
           _ _ _ eq_refl).
Defined.

(** X3.  Every segment [split_into_segments] returns is the words
    [start : start + max_seq_length] of the text its owner index names,
    joined by single spaces. *)
Theorem split_into_segments_provenance (texts : list string)
    (max_seq_length step : Z) (segs : list string) (owners starts : list Z) :
  split_into_segments texts max_seq_length step = Some (segs, owners, starts) ->
  Forall (fun e =>
            match e with
            | (seg, owner, start) =>
                exists query,
                  0 <= owner
                  /\ nth_error texts (Z.to_nat owner) = Some query
                  /\ seg = join " " (slice (split query) start
                                      (start + max_seq_length))
            end)
         (provenance (segs, owners, starts)).
Proof.
  intros Hrun.
  destruct (split_into_segments_well_formed _ _ _ _ _ _ Hrun)
    as [q_j (_ & _ & _ & _ & Hcut & _)].
  eapply Forall_impl; [|exact Hcut].
  intros [[seg owner] start] [query [Hin Hseg]].
  apply enumerate_from_nth in Hin as [Hle Hnth].
  rewrite Z.sub_0_r in Hnth. exists query. now repeat split.
Qed.

Lemma split_into_segments_provenance_witness :
  Forall (fun e =>
            match e with
            | (seg, owner, start) =>
                exists query,
                  0 <= owner
                  /\ nth_error ["a b c d"; "a b c d e"] (Z.to_nat owner)
                     = Some query
                  /\ seg = join " " (slice (split query) start (start + 2))
            end)
         (provenance (["a b"; "b c"; "c d"], [0; 0; 1], [0; 1; 2])).
Proof.
  exact (split_into_segments_provenance ["a b c d"; "a b c d e"] 2 1
           _ _ _ eq_refl).
Defined.

(** X4.  The owner indices [split_into_segments] returns never decrease:
    the segments of a query are next to one another, in the order of the
    queries. *)
Theorem split_into_segments_owners_sorted (texts : list string)
    (max_seq_length step : Z) (segs : list string) (owners starts : list Z) :
  split_into_segments texts max_seq_length step = Some (segs, owners, starts) ->
  StronglySorted Z.le owners.
Proof.
  intros Hrun.
  destruct (split_into_segments_well_formed _ _ _ _ _ _ Hrun)
    as [q_j (_ & _ & _ & _ & _ & Hsorted & _)].
  exact Hsorted.
Qed.

Lemma split_into_segments_owners_sorted_witness :
  StronglySorted Z.le [0; 0; 1].
Proof.
  exact (split_into_segments_owners_sorted ["a b c d"; "a b c d e"] 2 1
           _ _ _ eq_refl).
Defined.

(** ** [split_into_segments]: when it returns *)

Lemma while_window_ends (words : list string) (q_i max_seq_length step : Z) :
  0 < step ->
  forall fuel st,
    len words - (segment_start st + max_seq_length) <= Z.of_nat fuel ->
    exists st', while_window fuel words q_i max_seq_length step st = Some st'.
Proof.
  intros Hstep.
  induction fuel as [|fuel IH]; intros st Hfuel; simpl;
    destruct (segment_start st + max_seq_length <? len words) eqn:Hc;
    try (now exists st).
  - apply Z.ltb_lt in Hc. lia.
  - apply IH. simpl. lia.
Qed.

Lemma for_queries_ends (max_seq_length step : Z) (qs : list (Z * string)) :
  0 < step ->
  forall st, exists st', for_queries qs max_seq_length step st = Some st'.
Proof.
  intros Hstep.
  induction qs as [|[q_i query] qs IH]; intros st; simpl.
  - now exists st.
  - destruct (while_window_ends (split query) q_i max_seq_length step Hstep
                (window_fuel (split query) max_seq_length st) st)
      as [st1 Hw]; [unfold window_fuel; lia|].
    rewrite Hw. apply IH.
Qed.

(** X5.  With a positive [step], [split_into_segments] returns, whatever
    the texts and whatever [max_seq_length], negative values included. *)
Theorem split_into_segments_returns (texts : list string)
    (max_seq_length step : Z) :
  0 < step ->
  exists r, split_into_segments texts max_seq_length step = Some r.
Proof.
  intros Hstep. unfold split_into_segments.
  destruct (for_queries_ends max_seq_length step (enumerate texts) Hstep
              (mkSegState [] [] [] 0)) as [st ->].
  eexists. reflexivity.
Qed.

Lemma split_into_segments_returns_witness :
  exists r, split_into_segments ["a b c"; "d e"] (-1) 2 = Some r.
Proof.
  apply (split_into_segments_returns ["a b c"; "d e"] (-1) 2). lia.
Defined.

(** X6.  With a [step] that is zero or negative, [split_into_segments]
    never returns once its first text has more than [max_seq_length] words:
    the [while] loop is entered and no number of passes ends it. *)
Theorem split_into_segments_never_returns (query : string)
    (texts : list string) (max_seq_length step : Z) :
  step <= 0 ->
  max_seq_length < len (split query) ->
  (forall fuel,
      while_window fuel (split query) 0 max_seq_length step
        (mkSegState [] [] [] 0) = None)
  /\ split_into_segments (query :: texts) max_seq_length step = None.
Proof.
  intros Hstep Hlong.
  assert (Hloop : forall fuel,
             while_window fuel (split query) 0 max_seq_length step
               (mkSegState [] [] [] 0) = None)
    by (intros fuel; apply while_window_diverges; simpl; lia).
  split; [exact Hloop|].
  unfold split_into_segments, enumerate. cbn [enumerate_from for_queries].
  now rewrite Hloop.
Qed.

Lemma split_into_segments_never_returns_witness :
  (forall fuel,
      while_window fuel (split "a b c") 0 2 0 (mkSegState [] [] [] 0) = None)
  /\ split_into_segments ["a b c"; "d"] 2 0 = None.
Proof.
  apply (split_into_segments_never_returns "a b c" ["d"] 2 0);
    [lia | reflexivity].
Defined.

Lemma Forall_enumerate_from {A : Type} (P : A -> Prop) (l : list A) :
  forall k, Forall P l -> Forall (fun e => P (snd e)) (enumerate_from k l).
Proof.
  induction l as [|x l IH]; intros k Hall; simpl; [constructor|].
  inversion Hall; subst. constructor; [assumption | now apply IH].
Qed.

(** X7.  When no text has more than [max_seq_length] words,
    [split_into_segments] returns three empty lists, whatever the stride:
    such texts are given no segment at all. *)
Theorem split_into_segments_short_texts (texts : list string)
    (max_seq_length step : Z) :
  Forall (fun query => len (split query) <= max_seq_length) texts ->
  split_into_segments texts max_seq_length step = Some ([], [], []).
Proof.
  intros Hall. unfold split_into_segments, enumerate.
  rewrite for_queries_short; [reflexivity|].
  now apply (Forall_enumerate_from
               (fun query => len (split query) <= max_seq_length)).
Qed.

Lemma split_into_segments_short_texts_witness :
  split_into_segments ["the cat sat"; ""; "on the mat"] 3 0
  = Some ([], [], []).
Proof.
  apply (split_into_segments_short_texts ["the cat sat"; ""; "on the mat"] 3 0).
  repeat constructor; intro H; discriminate H.
Defined.

Lemma last_word_never_covered_witness :
  covered (["a b"; "b c"], [0; 0], [0; 1]) 0 (len (split "a b c d") - 1)
  = false.
Proof.
  apply (last_word_never_covered ["a b c d"; "x"] 2 1); try lia;
    [reflexivity | now left].
Defined.

(** ** [main]: from the input to the segments *)

(** X9.  [main] hands [margin] to [split_into_segments] as the stride: with
    a margin of zero (or less) the segmentation of a first text longer than
    [max_seq_length] never returns. *)
Theorem main_split_never_returns (args : Args) (text : string)
    (texts : list string) :
  margin args <= 0 ->
  max_seq_length args < len (split text) ->
  main_split_into_segments args (text :: texts) = None.
Proof.
  intros Hmargin Hlong.
  unfold main_split_into_segments, split_into_segments, enumerate.
  cbn [enumerate_from for_queries].
  rewrite while_window_diverges; [reflexivity | assumption | simpl; lia].
Qed.

Lemma main_split_never_returns_witness :
  let args := mkArgs None (Some "in.txt") None (Some "out.txt") None
                2 1 0 128 "OuU" in
  main_split_into_segments args ["the cat sat"] = None.
Proof.
  intros args.
  apply (main_split_never_returns args "the cat sat" []);
    [simpl; lia | reflexivity].
Defined.

Lemma split_lstrip (s : string) : split (lstrip s) = split s.
Proof.
  unfold split. induction s as [|c s IH]; simpl; [reflexivity|].
  destruct (is_space c) eqn:Hc; [exact IH|].
  simpl. now rewrite Hc.
Qed.

Lemma split_from_rstrip (s : string) :
  forall cur, split_from cur (rstrip s) = split_from cur s.
Proof.
  induction s as [|c s IH]; intros cur; [reflexivity|].
  cbn [rstrip].
  destruct (is_empty (rstrip s)) eqn:He, (is_space c) eqn:Hc; cbn [andb];
    cbn [split_from]; rewrite ?Hc, <- ?IH; try reflexivity.
  destruct (rstrip s); [reflexivity | discriminate].
Qed.

Lemma split_strip (s : string) : split (strip s) = split s.
Proof.
  unfold strip, split at 1. rewrite split_from_rstrip.
  apply split_lstrip.
Qed.

Lemma for_queries_strip (max_seq_length step : Z) (lines : list string) :
  forall k st,
    for_queries (enumerate_from k (map strip lines)) max_seq_length step st
    = for_queries (enumerate_from k lines) max_seq_length step st.
Proof.
  induction lines as [|line lines IH]; intros k st; [reflexivity|].
  cbn [map enumerate_from for_queries]. rewrite split_strip.
  destruct (while_window _ _ _ _ _ st); [apply IH | reflexivity].
Qed.

(** X10.  Stripping the lines of a text input, as [main] does, leaves the
    words of every line as they are, so the segments, owners and start words
    are those of the unstripped lines. *)
Theorem main_input_texts_same_segments (lines : list string)
    (max_seq_length step : Z) :
  map split (main_input_texts lines) = map split lines
  /\ split_into_segments (main_input_texts lines) max_seq_length step
     = split_into_segments lines max_seq_length step.
Proof.
  split.
  - unfold main_input_texts. rewrite map_map.
    apply map_ext. intros line. apply split_strip.
  - unfold split_into_segments, main_input_texts, enumerate.
    now rewrite for_queries_strip.
Qed.

Example strip_example :
  strip (String "009" "  the cat  " ++ String "010" "")%string = "the cat".
Proof. reflexivity. Qed.

(** ** [main]: the batches handed to the oracle *)






(** X12.  A batch size of zero makes the loop of line 254 raise
    [ValueError]; with a negative batch size the oracle is never called and
    no label is gathered, however many segments there are. *)
Theorem main_translate_no_batches (translate : list string -> list string)
    (segments : list string) (batch_size : Z) :
  (batch_size = 0 ->
   main_translate translate segments batch_size = Raise ValueError)
  /\ (batch_size < 0 ->
      main_translate translate segments batch_size = Return []).
Proof.
  unfold main_translate, range. split.
  - intros ->. reflexivity.
  - intros Hb.
    assert (Hne : (batch_size =? 0) = false) by (apply Z.eqb_neq; lia).
    assert (Hneg : (0 <? batch_size) = false) by (apply Z.ltb_ge; lia).
    rewrite Hne, Hneg. cbn [bind].
    assert (Hlen : 0 <= len segments) by (unfold len; lia).
    assert (Hq : (0 - len segments - batch_size - 1) / - batch_size < 1)
      by (apply Z.div_lt_upper_bound; lia).
    replace (Z.to_nat ((0 - len segments - batch_size - 1) / - batch_size))
      with O by lia.
    reflexivity.
Qed.

Lemma main_translate_no_batches_witness :
  main_translate (fun batch => batch) ["a"; "b"; "c"] 0 = Raise ValueError
  /\ main_translate (fun batch => batch) ["a"; "b"; "c"] (-2) = Return [].
Proof.
  destruct (main_translate_no_batches (fun batch => batch) ["a"; "b"; "c"] 0)
    as [Hzero _].
  destruct (main_translate_no_batches (fun batch => batch) ["a"; "b"; "c"] (-2))
    as [_ Hneg].
  split; [apply Hzero; reflexivity | apply Hneg; lia].
Defined.

(** ** [main]: the texts of a manifest *)

Lemma manifest_texts_loop_ok {A : Type} (key : string)
    (manifest : list (record A)) :
  forall done texts,
    manifest_texts_loop key manifest done = inr texts ->
    exists found,
      texts = done ++ found
      /\ Forall2 (fun item t => dict_get item key = Some t) manifest found.
Proof.
  induction manifest as [|item rest IH]; intros done texts Hrun;
    simpl in Hrun.
  - injection Hrun as <-. exists []. rewrite app_nil_r. now split.
  - destruct (dict_get item key) as [t|] eqn:Hget; [|discriminate].
    destruct (IH _ _ Hrun) as [found [-> Hall]].
    exists (t :: found). rewrite <- app_assoc. split; [reflexivity|].
    now constructor.
Qed.

Lemma manifest_texts_loop_missing {A : Type} (key : string)
    (manifest : list (record A)) :
  Exists (fun item => dict_get item key = None) manifest ->
  forall done, manifest_texts_loop key manifest done = inl (ManifestKeyError key).
Proof.
  induction 1 as [item rest Hnone | item rest Hex IH]; intros done; simpl.
  - now rewrite Hnone.
  - destruct (dict_get item key); [apply IH | reflexivity].
Qed.

(** X13.  When the texts of a manifest are gathered without error, the
    manifest is not empty, the key is ["pred_text"] if the first record has
    it and ["text"] otherwise, and the texts are the values of that key, one
    per record and in the order of the records. *)
Theorem main_manifest_texts_ok {A : Type} (manifest : list (record A))
    (texts : list A) :
  main_manifest_texts manifest = inr texts ->
  exists first rest,
    manifest = first :: rest
    /\ Forall2 (fun item t =>
                  dict_get item
                    (if dict_has first "pred_text" then "pred_text" else "text")
                  = Some t)
               manifest texts.
Proof.
  unfold main_manifest_texts, main_text_key.
  destruct manifest as [|first rest]; [discriminate|].
  intros Hrun. exists first, rest. split; [reflexivity|].
  destruct (manifest_texts_loop_ok _ _ _ _ Hrun) as [found [-> Hall]].
  exact Hall.
Qed.

Lemma main_manifest_texts_ok_witness :
  exists first rest,
    [[("audio", "a.wav"); ("text", "hello there")];
     [("text", "good bye"); ("audio", "b.wav")]] = first :: rest
    /\ Forall2 (fun item t =>
                  dict_get item
                    (if dict_has first "pred_text" then "pred_text" else "text")
                  = Some t)
               [[("audio", "a.wav"); ("text", "hello there")];
                [("text", "good bye"); ("audio", "b.wav")]]
               ["hello there"; "good bye"].
Proof.
  exact (main_manifest_texts_ok
           [[("audio", "a.wav"); ("text", "hello there")];
            [("text", "good bye"); ("audio", "b.wav")]]
           ["hello there"; "good bye"] eq_refl).
Defined.

(** X14.  The key is chosen from the first record alone: when some record
    of the manifest lacks it, gathering the texts raises [KeyError] for that
    key, even if the record has the other key. *)
Theorem main_manifest_texts_missing_key {A : Type} (first : record A)
    (rest : list (record A)) :
  let key := if dict_has first "pred_text" then "pred_text" else "text" in
  Exists (fun item => dict_get item key = None) (first :: rest) ->
  main_manifest_texts (first :: rest) = inl (ManifestKeyError key).
Proof.
  intros key Hex. unfold main_manifest_texts, main_text_key. fold key.
  now apply manifest_texts_loop_missing.
Qed.

Lemma main_manifest_texts_missing_key_witness :
  main_manifest_texts
    [[("pred_text", "hello there"); ("text", "hello their")];
     [("text", "good bye")]]
  = inl (ManifestKeyError "pred_text").
Proof.
  apply (main_manifest_texts_missing_key
           [("pred_text", "hello there"); ("text", "hello their")]
           [[("text", "good bye")]]).
  right. left. reflexivity.
Defined.

(** ** [adjust_predicted_labels_length]: what it returns *)

Lemma adjust_loop_length (caps : string) (pairs : list (string * string)) :
  forall acc result,
    adjust_loop caps pairs acc = Return result ->
    List.length result = (List.length acc + List.length pairs)%nat.
Proof.
  induction pairs as [|[segment labels] rest IH]; intros acc result H.
  - simpl in H. injection H as <-. simpl. lia.
  - simpl in H. destruct (adjust_labels caps segment labels) as [l'|e];
      simpl in H; [|discriminate].
    apply IH in H. rewrite H, length_app. simpl. lia.
Qed.

Lemma length_zip_min {A B : Type} (xs : list A) (ys : list B) :
  List.length (zip xs ys) = Nat.min (List.length xs) (List.length ys).
Proof. unfold zip. apply length_combine. Qed.

(** X15. When [adjust_predicted_labels_length] returns, its result has one
    entry per pair of [zip(segments, autoregressive_labels)]: as many as the
    shorter of the two lists, so segments without a label string (and label
    strings without a segment) are dropped silently. *)
Theorem adjust_predicted_labels_length_count
    (segments autoregressive_labels : list string)
    (capitalization_labels : string) (result : list string) :
  adjust_predicted_labels_length segments autoregressive_labels
    capitalization_labels = Return result ->
  List.length result = Nat.min (List.length segments) (List.length autoregressive_labels).
Proof.
  unfold adjust_predicted_labels_length, re_compile_class.
  destruct (is_empty capitalization_labels); cbn [bind]; [discriminate|].
  intros H. apply adjust_loop_length in H. rewrite H, length_zip_min.
  reflexivity.
Qed.

Lemma adjust_predicted_labels_length_count_witness :
  List.length ["O O O O "; "O "] = Nat.min 3 2.
Proof.
  exact (adjust_predicted_labels_length_count
           ["big dog"; "cat"; "x y z"] ["O O"; "O "] "OuU" _ eq_refl).
Defined.

Lemma starts_with_refl (s : string) : starts_with s s = true.
Proof.
  induction s as [|c s IH]; simpl; [reflexivity|].
  rewrite Ascii.eqb_refl. exact IH.
Qed.

Lemma starts_with_append (a b : string) : starts_with a (a ++ b) = true.
Proof.
  induction a as [|c a IH]; simpl; [reflexivity|].
  rewrite Ascii.eqb_refl. exact IH.
Qed.

Lemma starts_with_firstn (s : string) :
  forall n,
    starts_with (string_of_list_ascii (firstn n (list_ascii_of_string s))) s
    = true.
Proof.
  induction s as [|c s IH]; intros [|n]; simpl; try reflexivity.
  rewrite Ascii.eqb_refl. apply IH.
Qed.

Lemma starts_with_slice_to (s : string) (b : Z) :
  starts_with (str_slice_to s b) s = true.
Proof.
  unfold str_slice_to, slice. cbn [skipn Z.to_nat clamp].
  replace (clamp (len (list_ascii_of_string s)) 0) with 0.
  - simpl. apply starts_with_firstn.
  - unfold clamp, len. simpl. lia.
Qed.

Lemma adjust_labels_same_up_to_end (caps segment labels r : string) :
  adjust_labels caps segment labels = Return r ->
  same_up_to_end labels r.
Proof.
  unfold adjust_labels, same_up_to_end. intros H.
  destruct (count_class caps segment <? len (split segment)).
  - destruct (str_index labels (-1)) as [last|e]; cbn [bind] in H;
      [|discriminate].
    destruct (negb (Ascii.eqb last " ")).
    + destruct (str_index caps 0) as [neutral|e]; cbn [bind] in H;
        [|discriminate].
      injection H as <-. left. apply starts_with_append.
    + injection H as <-. left. apply starts_with_refl.
  - destruct (len (split segment) <? count_class caps segment).
    + destruct (truncate_while _ _ _ _ _ _) as [pos|e]; cbn [bind] in H;
        [|discriminate].
      injection H as <-. right. apply starts_with_slice_to.
    + injection H as <-. left. apply starts_with_refl.
Qed.

Lemma adjust_loop_same_up_to_end (caps : string)
    (pairs : list (string * string)) :
  forall acc result,
    adjust_loop caps pairs acc = Return result ->
    exists added,
      result = acc ++ added /\
      Forall2 (fun pair r => same_up_to_end (snd pair) r) pairs added.
Proof.
  induction pairs as [|[segment labels] rest IH]; intros acc result H.
  - simpl in H. injection H as <-. exists []. split.
    + symmetry. apply app_nil_r.
    + constructor.
  - simpl in H.
    destruct (adjust_labels caps segment labels) as [l'|e] eqn:E;
      simpl in H; [|discriminate].
    apply IH in H. destruct H as (added & -> & HF).
    exists (l' :: added). split.
    + rewrite <- app_assoc. reflexivity.
    + constructor; [|exact HF].
      simpl. eapply adjust_labels_same_up_to_end. exact E.
Qed.

(** X16. [adjust_predicted_labels_length] only touches the end of a label
    string: when it returns, the entry it gives for a pair of
    [zip(segments, autoregressive_labels)] and the label string of that pair
    agree up to the end of the shorter one (the label string was extended,
    cut, or left as it was), pair by pair and in the order of the input. *)
Theorem adjust_predicted_labels_length_keeps_text
    (segments autoregressive_labels : list string)
    (capitalization_labels : string) (result : list string) :
  adjust_predicted_labels_length segments autoregressive_labels
    capitalization_labels = Return result ->
  Forall2 (fun pair r => same_up_to_end (snd pair) r)
    (zip segments autoregressive_labels) result.
Proof.
  unfold adjust_predicted_labels_length, re_compile_class.
  destruct (is_empty capitalization_labels); cbn [bind]; [discriminate|].
  intros H. apply adjust_loop_same_up_to_end in H.
  destruct H as (added & -> & HF). exact HF.
Qed.

Lemma adjust_predicted_labels_length_keeps_text_witness :
  Forall2 (fun pair r => same_up_to_end (snd pair) r)
    (zip ["hello world"; "unusual"] ["O"; "O, U. "]) ["O O O "; ""].
Proof.
  exact (adjust_predicted_labels_length_keeps_text
           ["hello world"; "unusual"] ["O"; "O, U. "] "OuU" _ eq_refl).
Defined.

(** ** [adjust_predicted_labels_length]: label strings that end in a space *)

Lemma chars_append (a b : string) :
  list_ascii_of_string (a ++ b)
  = list_ascii_of_string a ++ list_ascii_of_string b.
Proof.
  induction a as [|c a IH]; simpl; [reflexivity | now rewrite IH].
Qed.

Lemma str_index_last (l : string) (c : ascii) :
  str_index (l ++ String c "") (-1) = Return c.
Proof.
  unfold str_index, index, len. rewrite chars_append, length_app.
  cbn [list_ascii_of_string List.length].
  change (-1 <? 0) with true. cbv iota.
  destruct (-1 + Z.of_nat (List.length (list_ascii_of_string l) + 1) <? 0)
    eqn:E; [apply Z.ltb_lt in E; lia|].
  replace (Z.to_nat (-1 + Z.of_nat (List.length (list_ascii_of_string l) + 1)))
    with (List.length (list_ascii_of_string l)) by lia.
  rewrite nth_error_app2 by lia. now rewrite Nat.sub_diag.
Qed.

Lemma adjust_labels_trailing_space (caps segment l : string) :
  count_class caps segment <= len (split segment) ->
  adjust_labels caps segment (l ++ " ") = Return (l ++ " ")%string.
Proof.
  intros Hle. unfold adjust_labels.
  destruct (count_class caps segment <? len (split segment)).
  - rewrite str_index_last. reflexivity.
  - destruct (len (split segment) <? count_class caps segment) eqn:E;
      [apply Z.ltb_lt in E; lia | reflexivity].
Qed.

Lemma adjust_loop_trailing_space (caps : string)
    (pairs : list (string * string)) :
  Forall (fun pair =>
            count_class caps (fst pair) <= len (split (fst pair))
            /\ exists l, snd pair = (l ++ " ")%string) pairs ->
  forall acc, adjust_loop caps pairs acc = Return (acc ++ map snd pairs).
Proof.
  induction 1 as [|[segment labels] rest [Hle [l Hl]] _ IH]; intros acc.
  - simpl. now rewrite app_nil_r.
  - simpl in Hle, Hl. subst labels. cbn [adjust_loop].
    rewrite adjust_labels_trailing_space by assumption. cbn [bind].
    rewrite IH, <- app_assoc. reflexivity.
Qed.

(** X17. A label string that ends in a space is never extended: for a
    plain alphabet, when no segment holds more characters of the alphabet
    than words and every label string ends in a space,
    [adjust_predicted_labels_length] returns the label strings as they are,
    however many tags a segment falls short of. *)
Theorem adjust_predicted_labels_length_trailing_space
    (segments autoregressive_labels : list string)
    (capitalization_labels : string) :
  is_empty capitalization_labels = false ->
  plain_class capitalization_labels = true ->
  Forall (fun pair =>
            count_class capitalization_labels (fst pair)
              <= len (split (fst pair))
            /\ exists l, snd pair = (l ++ " ")%string)
         (zip segments autoregressive_labels) ->
  adjust_predicted_labels_length segments autoregressive_labels
    capitalization_labels
  = Return (map snd (zip segments autoregressive_labels)).
Proof.
  intros Hcaps _ Hall.
  unfold adjust_predicted_labels_length, re_compile_class.
  rewrite Hcaps. cbn [bind].
  now rewrite adjust_loop_trailing_space.
Qed.

Lemma adjust_predicted_labels_length_trailing_space_witness :
  adjust_predicted_labels_length ["hello big world"; "good dog"]
    ["O "; "O, U. "] "OuU"
  = Return ["O "; "O, U. "].
Proof.
  apply (adjust_predicted_labels_length_trailing_space
           ["hello big world"; "good dog"] ["O "; "O, U. "] "OuU");
    [reflexivity | reflexivity |].
  constructor; [|constructor; [|constructor]].
  - split; [intro H; discriminate H | now exists "O"].
  - split; [intro H; discriminate H | now exists "O, U."].
Defined.

(** ** [adjust_predicted_labels_length]: when it raises *)

Lemma index_raises {A : Type} (l : list A) (i : Z) (e : exn) :
  index l i = Raise e -> e = IndexError.
Proof.
  unfold index.
  destruct ((if i <? 0 then i + len l else i) <? 0); [congruence|].
  destruct (nth_error l _); congruence.
Qed.

Lemma truncate_while_raises (caps labels : string) (num_words : Z) :
  forall left i pos e,
    truncate_while left caps labels num_words i pos = Raise e ->
    e = IndexError.
Proof.
  induction left as [|left IH]; intros i pos e; simpl;
    destruct (num_words <? i); try congruence.
  destruct (str_index labels pos) as [c|e'] eqn:E; cbn [bind].
  - apply IH.
  - apply index_raises in E. congruence.
Qed.

Lemma adjust_labels_raises (caps segment labels : string) (e : exn) :
  adjust_labels caps segment labels = Raise e -> e = IndexError.
Proof.
  unfold adjust_labels.
  destruct (count_class caps segment <? len (split segment)).
  - destruct (str_index labels (-1)) as [last|e'] eqn:E; cbn [bind].
    + destruct (negb (Ascii.eqb last " ")); [|discriminate].
      destruct (str_index caps 0) as [neutral|e''] eqn:E'; cbn [bind];
        [discriminate|].
      apply index_raises in E'. congruence.
    + apply index_raises in E. congruence.
  - destruct (len (split segment) <? count_class caps segment);
      [|discriminate].
    destruct (truncate_while _ _ _ _ _ _) as [pos|e'] eqn:E; cbn [bind];
      [discriminate|].
    apply truncate_while_raises in E. congruence.
Qed.

(** One pair whose label string cannot be adjusted makes the whole loop
    raise [IndexError], wherever the pair stands. *)
Lemma adjust_loop_raises (caps segment labels : string)
    (pairs : list (string * string)) :
  In (segment, labels) pairs ->
  adjust_labels caps segment labels = Raise IndexError ->
  forall acc, adjust_loop caps pairs acc = Raise IndexError.
Proof.
  intros Hin Hbad.
  induction pairs as [|[segment' labels'] rest IH]; intros acc;
    [contradiction|].
  cbn [adjust_loop].
  destruct (adjust_labels caps segment' labels') as [r|e] eqn:E; cbn [bind].
  - destruct Hin as [Heq | Hin]; [|now apply IH].
    injection Heq as -> ->. congruence.
  - apply adjust_labels_raises in E. now subst e.
Qed.

Lemma str_index_empty (i : Z) : str_index "" i = Raise IndexError.
Proof.
  unfold str_index, index, len. simpl.
  destruct ((if i <? 0 then i + 0 else i) <? 0); [reflexivity|].
  now destruct (Z.to_nat _).
Qed.

(** X18. An empty label string makes the whole call fail: for a plain
    alphabet, when a segment whose number of alphabet characters differs
    from its number of words is paired with the empty label string,
    [adjust_predicted_labels_length] raises [IndexError], wherever the pair
    stands in the lists. *)
Theorem adjust_predicted_labels_length_empty_labels
    (segment : string) (segments autoregressive_labels : list string)
    (capitalization_labels : string) :
  is_empty capitalization_labels = false ->
  plain_class capitalization_labels = true ->
  In (segment, "") (zip segments autoregressive_labels) ->
  count_class capitalization_labels segment <> len (split segment) ->
  adjust_predicted_labels_length segments autoregressive_labels
    capitalization_labels
  = Raise IndexError.
Proof.
  intros Hcaps _ Hin Hne.
  unfold adjust_predicted_labels_length, re_compile_class.
  rewrite Hcaps. cbn [bind].
  apply (adjust_loop_raises _ segment ""); [exact Hin|].
  unfold adjust_labels.
  destruct (count_class capitalization_labels segment <? len (split segment))
    eqn:E1.
  - now rewrite str_index_empty.
  - destruct (len (split segment) <? count_class capitalization_labels segment)
      eqn:E2.
    + change (2 * String.length "")%nat with O. cbn [truncate_while].
      now rewrite E2.
    + apply Z.ltb_ge in E1, E2. lia.
Qed.

Lemma adjust_predicted_labels_length_empty_labels_witness :
  adjust_predicted_labels_length ["Up"; "hello world"] ["U "; ""] "OuU"
  = Raise IndexError.
Proof.
  apply (adjust_predicted_labels_length_empty_labels "hello world"
           ["Up"; "hello world"] ["U "; ""] "OuU").
  - reflexivity.
  - reflexivity.
  - right. left. reflexivity.
  - intro H. discriminate H.
Defined.

(** ** [adjust_predicted_labels_length]: how many tags are added or removed *)

Lemma count_class_chars (cls s : string) :
  count_class cls s = count_chars cls (list_ascii_of_string s).
Proof.
  induction s as [|c s IH]; simpl; [reflexivity | now rewrite IH].
Qed.

Lemma count_chars_app (cls : string) (a b : list ascii) :
  count_chars cls (a ++ b) = count_chars cls a + count_chars cls b.
Proof.
  induction a as [|c a IH]; simpl; [reflexivity | rewrite IH; lia].
Qed.

Lemma count_class_append (cls a b : string) :
  count_class cls (a ++ b) = count_class cls a + count_class cls b.
Proof.
  rewrite !count_class_chars, chars_append. apply count_chars_app.
Qed.

Lemma count_chars_nonneg (cls : string) (l : list ascii) :
  0 <= count_chars cls l.
Proof.
  induction l as [|c l IH]; simpl; [lia|].
  destruct (char_in c cls); lia.
Qed.

(** [(neutral + " ") * n] holds [n] tags when the space is no tag. *)
Lemma count_class_repeat (cls : string) (neutral : ascii) (n : nat) :
  char_in neutral cls = true ->
  char_in " " cls = false ->
  count_class cls (repeat_nat (String neutral " ") n) = Z.of_nat n.
Proof.
  intros Hin Hsp.
  induction n as [|n IH]; [reflexivity|].
  cbn [repeat_nat]. rewrite count_class_append, IH.
  cbn [count_class]. rewrite Hin, Hsp. lia.
Qed.

(** X19. For a plain alphabet, a label string that does not end in a
    space, for a segment that holds fewer alphabet characters than words, is
    extended by exactly one tag per missing one: the result holds the tags
    of the label string plus the difference between the number of words and
    the number of alphabet characters of the segment (the space must not be
    in the alphabet). *)
Theorem adjust_labels_adds_the_deficit
    (caps segment l : string) (c : ascii) :
  is_empty caps = false ->
  plain_class caps = true ->
  char_in " " caps = false ->
  c <> " "%char ->
  count_class caps segment < len (split segment) ->
  exists r,
    adjust_labels caps segment (l ++ String c "") = Return r
    /\ starts_with (l ++ String c "") r = true
    /\ count_class caps r
       = count_class caps (l ++ String c "")
         + (len (split segment) - count_class caps segment).
Proof.
  intros Hcaps _ Hsp Hc Hlt. unfold adjust_labels.
  apply Z.ltb_lt in Hlt. rewrite Hlt. apply Z.ltb_lt in Hlt.
  rewrite str_index_last. cbn [bind].
  apply Ascii.eqb_neq in Hc. rewrite Hc. cbn [negb].
  destruct caps as [|neutral caps']; [discriminate|].
  change (str_index (String neutral caps') 0) with (Return neutral).
  cbn [bind]. eexists. split; [reflexivity|]. split.
  - apply starts_with_append.
  - rewrite !count_class_append. unfold repeat.
    rewrite count_class_repeat;
      [| cbn [char_in]; now rewrite Ascii.eqb_refl | exact Hsp].
    cbn [count_class]. rewrite Hsp. lia.
Qed.

Lemma adjust_labels_adds_the_deficit_witness :
  exists r,
    adjust_labels "OuU" "the big dog" ("O, " ++ String "U" "") = Return r
    /\ starts_with ("O, " ++ String "U" "") r = true
    /\ count_class "OuU" r
       = count_class "OuU" ("O, " ++ String "U" "")
         + (len (split "the big dog") - count_class "OuU" "the big dog").
Proof.
  apply (adjust_labels_adds_the_deficit "OuU" "the big dog" "O, " "U");
    [reflexivity | reflexivity | reflexivity | intro H; discriminate H
    | reflexivity].
Defined.

Lemma firstn_succ_nth {A : Type} (l : list A) (k : nat) (x : A) :
  nth_error l k = Some x -> firstn (S k) l = firstn k l ++ [x].
Proof.
  revert k. induction l as [|y l IH]; intros [|k] H; simpl in H;
    try discriminate.
  - now injection H as ->.
  - change (firstn (S (S k)) (y :: l)) with (y :: firstn (S k) l).
    rewrite (IH k H). reflexivity.
Qed.

(** Reading the label string from position [m - 1] downwards, the loop of
    lines 164-167 stops as soon as it has passed [i - num_words] tags, when
    the first [m] characters hold that many. *)
Lemma truncate_while_scan (caps labels : string) (num_words : Z) :
  forall m left i,
    (m <= left)%nat ->
    (m <= String.length labels)%nat ->
    num_words <= i ->
    i - num_words <= count_chars caps (firstn m (list_ascii_of_string labels)) ->
    exists m',
      (m' <= m)%nat
      /\ truncate_while left caps labels num_words i (Z.of_nat m - 1)
         = Return (Z.of_nat m' - 1)
      /\ count_chars caps (firstn m' (list_ascii_of_string labels))
         = count_chars caps (firstn m (list_ascii_of_string labels))
           - (i - num_words).
Proof.
  induction m as [|k IH]; intros left i Hleft Hlen Hi Hcount.
  - cbn [firstn count_chars] in Hcount.
    assert (i = num_words) by lia. subst i.
    exists O. split; [lia|]. split; [|cbn [firstn count_chars]; lia].
    destruct left; cbn [truncate_while]; now rewrite Z.ltb_irrefl.
  - destruct (num_words <? i) eqn:E.
    + apply Z.ltb_lt in E.
      destruct left as [|left]; [lia|].
      assert (Hk : (k < List.length (list_ascii_of_string labels))%nat)
        by (rewrite length_chars; lia).
      destruct (nth_error (list_ascii_of_string labels) k) as [c|] eqn:Hnth;
        [|apply nth_error_None in Hnth; lia].
      assert (Hread : str_index labels (Z.of_nat (S k) - 1) = Return c).
      { unfold str_index, index.
        destruct (Z.of_nat (S k) - 1 <? 0) eqn:E1; [apply Z.ltb_lt in E1; lia|].
        rewrite E1.
        replace (Z.to_nat (Z.of_nat (S k) - 1)) with k by lia.
        now rewrite Hnth. }
      rewrite (firstn_succ_nth _ _ _ Hnth), count_chars_app in Hcount |- *.
      cbn [count_chars] in Hcount |- *.
      destruct (IH left (if char_in c caps then i - 1 else i))
        as (m' & Hm' & Hrun & Hcnt);
        [lia | lia | destruct (char_in c caps); lia
        | destruct (char_in c caps); lia |].
      exists m'. split; [lia|]. split.
      * cbn [truncate_while]. apply Z.ltb_lt in E. rewrite E, Hread.
        cbn [bind].
        replace (Z.of_nat (S k) - 1 - 1) with (Z.of_nat k - 1) by lia.
        exact Hrun.
      * rewrite Hcnt. destruct (char_in c caps); lia.
    + apply Z.ltb_ge in E. assert (i = num_words) by lia. subst i.
      exists (S k). split; [lia|]. split; [|lia].
      destruct left; cbn [truncate_while]; now rewrite Z.ltb_irrefl.
Qed.

Lemma chars_of_list (l : list ascii) :
  list_ascii_of_string (string_of_list_ascii l) = l.
Proof. apply list_ascii_of_string_of_list_ascii. Qed.

Lemma str_slice_to_firstn (s : string) (m : nat) :
  (m <= String.length s)%nat ->
  str_slice_to s (Z.of_nat m)
  = string_of_list_ascii (firstn m (list_ascii_of_string s)).
Proof.
  intros Hm. unfold str_slice_to, slice, clamp, len.
  rewrite length_chars.
  change (0 <? 0) with false. cbv iota.
  destruct (Z.of_nat m <? 0) eqn:E; [apply Z.ltb_lt in E; lia|].
  rewrite Z.min_l by lia. rewrite Z.min_l by lia.
  cbn [Z.to_nat skipn]. rewrite Z.sub_0_r, Nat2Z.id. reflexivity.
Qed.

(** X20. For a plain alphabet, a label string for a segment that holds
    more alphabet characters than words is cut at its end by exactly the
    surplus: when the label string holds at least that many tags, the result
    is a prefix of it with that many tags fewer. *)
Theorem adjust_labels_removes_the_surplus (caps segment labels : string) :
  plain_class caps = true ->
  len (split segment) < count_class caps segment ->
  count_class caps segment - len (split segment) <= count_class caps labels ->
  exists r,
    adjust_labels caps segment labels = Return r
    /\ starts_with r labels = true
    /\ count_class caps r
       = count_class caps labels
         - (count_class caps segment - len (split segment)).
Proof.
  intros _ Hgt Hhas. unfold adjust_labels.
  destruct (count_class caps segment <? len (split segment)) eqn:E1;
    [apply Z.ltb_lt in E1; lia|].
  apply Z.ltb_lt in Hgt. rewrite Hgt. apply Z.ltb_lt in Hgt.
  destruct (truncate_while_scan caps labels (len (split segment))
              (String.length labels) (2 * String.length labels)
              (count_class caps segment))
    as (m' & Hm' & Hrun & Hcnt).
  - lia.
  - lia.
  - lia.
  - rewrite <- length_chars, firstn_all, <- count_class_chars. exact Hhas.
  - unfold strlen. rewrite Hrun. cbn [bind].
    replace (Z.of_nat m' - 1 + 1) with (Z.of_nat m') by lia.
    eexists. split; [reflexivity|]. split.
    + apply starts_with_slice_to.
    + rewrite str_slice_to_firstn by exact Hm'.
      rewrite count_class_chars, chars_of_list, Hcnt.
      rewrite <- length_chars, firstn_all, <- count_class_chars. reflexivity.
Qed.

Lemma adjust_labels_removes_the_surplus_witness :
  exists r,
    adjust_labels "OuU" "unusual" "O, U. O " = Return r
    /\ starts_with r "O, U. O " = true
    /\ count_class "OuU" r
       = count_class "OuU" "O, U. O "
         - (count_class "OuU" "unusual" - len (split "unusual")).
Proof.
  apply (adjust_labels_removes_the_surplus "OuU" "unusual" "O, U. O ");
    [reflexivity | reflexivity | intro H; discriminate H].
Defined.

Lemma count_chars_none (cls : string) (l : list ascii) (c : ascii) :
  count_chars cls l = 0 -> In c l -> char_in c cls = false.
Proof.
  induction l as [|d l IH]; intros Hz Hin; [contradiction|].
  cbn [count_chars] in Hz. pose proof (count_chars_nonneg cls l) as Hnn.
  destruct Hin as [-> | Hin].
  - destruct (char_in c cls); [lia | reflexivity].
  - apply IH; [|exact Hin]. destruct (char_in d cls); lia.
Qed.

Lemma index_in {A : Type} (l : list A) (i : Z) (x : A) :
  index l i = Return x -> In x l.
Proof.
  unfold index.
  destruct ((if i <? 0 then i + len l else i) <? 0); [discriminate|].
  destruct (nth_error l _) eqn:E; [|discriminate].
  intros H. injection H as <-. eapply nth_error_In. exact E.
Qed.

Lemma count_class_empty (s : string) : count_class "" s = 0.
Proof.
  induction s as [|c s IH]; simpl; [reflexivity | exact IH].
Qed.

Lemma truncate_while_no_tags (caps labels : string) (num_words : Z) :
  count_class caps labels = 0 ->
  forall left i pos,
    num_words < i ->
    truncate_while left caps labels num_words i pos = Raise IndexError.
Proof.
  intros Hz.
  induction left as [|left IH]; intros i pos Hi; cbn [truncate_while];
    apply Z.ltb_lt in Hi; rewrite Hi; [reflexivity|].
  destruct (str_index labels pos) as [c|e] eqn:E; cbn [bind].
  - apply index_in in E. rewrite count_class_chars in Hz.
    rewrite (count_chars_none _ _ _ Hz E). apply IH. now apply Z.ltb_lt.
  - apply index_raises in E. now subst e.
Qed.

(** X21. For a plain alphabet, when a segment holds more alphabet
    characters than words and its label string holds no tag at all, there is
    nothing to cut: [adjust_predicted_labels_length] raises [IndexError],
    wherever the pair stands in the lists. *)
Theorem adjust_predicted_labels_length_no_tags
    (segment labels : string) (segments autoregressive_labels : list string)
    (capitalization_labels : string) :
  plain_class capitalization_labels = true ->
  In (segment, labels) (zip segments autoregressive_labels) ->
  len (split segment) < count_class capitalization_labels segment ->
  count_class capitalization_labels labels = 0 ->
  adjust_predicted_labels_length segments autoregressive_labels
    capitalization_labels
  = Raise IndexError.
Proof.
  intros _ Hin Hgt Hz.
  unfold adjust_predicted_labels_length, re_compile_class.
  destruct (is_empty capitalization_labels) eqn:Hcaps.
  - destruct capitalization_labels; [|discriminate].
    rewrite count_class_empty in Hgt. unfold len in Hgt. lia.
  - cbn [bind].
    apply (adjust_loop_raises _ segment labels); [exact Hin|].
    unfold adjust_labels.
    destruct (count_class capitalization_labels segment <? len (split segment))
      eqn:E1; [apply Z.ltb_lt in E1; lia|].
    apply Z.ltb_lt in Hgt. rewrite Hgt. apply Z.ltb_lt in Hgt.
    now rewrite truncate_while_no_tags.
Qed.

Lemma adjust_predicted_labels_length_no_tags_witness :
  adjust_predicted_labels_length ["Up"; "unusual"] ["U "; ", . "] "OuU"
  = Raise IndexError.
Proof.
  apply (adjust_predicted_labels_length_no_tags "unusual" ", . "
           ["Up"; "unusual"] ["U "; ", . "] "OuU").
  - reflexivity.
  - right. left. reflexivity.
  - reflexivity.
  - reflexivity.
Defined.

(** ** [split_into_segments] followed by [apply_autoregressive_labels] *)

(** The owner of the first segment is the index of one of the texts. *)
Lemma first_owner_is_a_text (texts : list string) (max_seq_length step : Z)
    (segs : list string) (q_0 : Z) (owners starts : list Z) :
  split_into_segments texts max_seq_length step
    = Some (segs, q_0 :: owners, starts) ->
  exists query, In (q_0, query) (enumerate texts).
Proof.
  intros Hrun.
  destruct (split_into_segments_well_formed _ _ _ _ _ _ Hrun)
    as [q_j (Hl1 & Hl2 & _ & _ & Hcut & _)].
  cbn [segments query_indices start_word_i] in Hl1, Hl2, Hcut.
  destruct segs as [|seg segs]; [discriminate|].
  destruct starts as [|start starts]; [discriminate|].
  unfold provenance, zip in Hcut. cbn [combine] in Hcut.
  inversion Hcut as [|? ? Hhead _]; subst.
  unfold cut_from in Hhead. destruct Hhead as [query [Hin _]].
  now exists query.
Qed.

(** A query whose index is not the first owner recorded does not enter the
    [while] loop. *)
Lemma accumulate_query_other (fuel : nat)
    (segment_autoregressive_labels : list string) (query_indices : list Z)
    (step margin : Z) (caps : string) (q_0 q_i : Z) (query : string) :
  index query_indices 0 = Return q_0 ->
  q_0 <> q_i ->
  exists t,
    accumulate_query fuel segment_autoregressive_labels query_indices step
      margin caps q_i query = Some (Return t).
Proof.
  intros Hown Hne. unfold accumulate_query.
  apply Z.eqb_neq in Hne.
  eexists. destruct fuel; cbn [while_segments]; rewrite Hown, Hne; reflexivity.
Qed.

(** The loop over the queries does not get past the query that owns the
    first segment. *)
Lemma for_each_query_reaches (fuel : nat)
    (segment_autoregressive_labels : list string) (query_indices : list Z)
    (step margin : Z) (caps : string) (q_0 : Z) :
  index query_indices 0 = Return q_0 ->
  forall rest k,
    k <= q_0 < k + len rest ->
    for_each_query fuel segment_autoregressive_labels query_indices step
      margin caps (enumerate_from k rest) = None
    \/ exists e,
         for_each_query fuel segment_autoregressive_labels query_indices step
           margin caps (enumerate_from k rest) = Some (Raise e).
Proof.
  intros Hown.
  induction rest as [|query rest IH]; intros k Hk.
  - unfold len in Hk. simpl in Hk. lia.
  - cbn [enumerate_from for_each_query].
    destruct (Z.eq_dec q_0 k) as [-> | Hne].
    + unfold accumulate_query.
      destruct (while_segments_first segment_autoregressive_labels
                  query_indices step margin caps k (len (split query)) Hown
                  fuel
                  (mkTally (fresh_counters (len (split query) + 1))
                           (fresh_counters (len (split query)))))
        as [-> | [e ->]]; [now left | right; now exists e].
    + destruct (accumulate_query_other fuel segment_autoregressive_labels
                  query_indices step margin caps q_0 k query Hown Hne)
        as [t ->].
      apply IH. unfold len in *. cbn [List.length] in Hk. lia.
Qed.

(** On the owner indices recorded for a non-empty list of texts the loop
    over the queries never comes to its end. *)
Lemma for_each_query_on_split_owners (texts : list string)
    (max_seq_length stride : Z) (segs : list string) (owners starts : list Z) :
  texts <> [] ->
  split_into_segments texts max_seq_length stride
    = Some (segs, owners, starts) ->
  forall fuel segment_autoregressive_labels step margin caps,
    for_each_query fuel segment_autoregressive_labels owners step margin caps
      (enumerate texts) = None
    \/ exists e,
         for_each_query fuel segment_autoregressive_labels owners step margin
           caps (enumerate texts) = Some (Raise e).
Proof.
  intros Htexts Hrun fuel labels step margin caps.
  destruct owners as [|q_0 owners].
  - destruct texts as [|query texts]; [congruence|].
    right. exists IndexError.
    unfold enumerate. cbn [enumerate_from for_each_query].
    unfold accumulate_query. destruct fuel; reflexivity.
  - destruct (first_owner_is_a_text _ _ _ _ _ _ _ Hrun) as [query Hin].
    apply enumerate_from_nth in Hin as [Hle Hnth].
    assert (Hlt : (Z.to_nat (q_0 - 0) < List.length texts)%nat)
      by (apply nth_error_Some; congruence).
    apply (for_each_query_reaches fuel labels (q_0 :: owners) step margin
             caps q_0 eq_refl texts 0).
    unfold len. lia.
Qed.

(** X22. Handed the owner indices that [split_into_segments] returned for
    the same non-empty list of texts, [apply_autoregressive_labels] never
    returns normally: whatever the label strings, the stride, the margin and
    the alphabet, the call raises or runs forever. *)
Theorem apply_after_split_never_returns (texts : list string)
    (max_seq_length stride : Z) (segs : list string) (owners starts : list Z) :
  texts <> [] ->
  split_into_segments texts max_seq_length stride
    = Some (segs, owners, starts) ->
  forall fuel segment_autoregressive_labels step margin caps,
    apply_autoregressive_labels fuel texts segment_autoregressive_labels
      owners starts step margin caps = None
    \/ exists e,
         apply_autoregressive_labels fuel texts segment_autoregressive_labels
           owners starts step margin caps = Some (Raise e).
Proof.
  intros Htexts Hrun fuel labels step margin caps.
  unfold apply_autoregressive_labels.
  destruct (re_compile_class caps) as [cls|e]; [|right; now exists e].
  destruct (for_each_query_on_split_owners texts max_seq_length stride segs
              owners starts Htexts Hrun fuel labels step margin cls)
    as [-> | [e ->]]; [now left | right; now exists e].
Qed.

Lemma apply_after_split_never_returns_witness :
  apply_autoregressive_labels 5 ["x"; "a b c"] ["O O "] [1] [0] 1 0 "OuU" = None
  \/ exists e,
       apply_autoregressive_labels 5 ["x"; "a b c"] ["O O "] [1] [0] 1 0 "OuU"
       = Some (Raise e).
Proof.
  apply (apply_after_split_never_returns ["x"; "a b c"] 2 1 ["a b"] [1] [0]);
    [intro H; discriminate H | reflexivity].
Defined.

(** ** [apply_autoregressive_labels]: what it reads *)

Lemma segment_body_reads_first (labels labels' : list string)
    (step margin : Z) (caps : string) (num_words : Z) (t : tally) :
  index labels 0 = index labels' 0 ->
  segment_body labels step margin caps num_words 0 t
  = segment_body labels' step margin caps num_words 0 t.
Proof. intros H. unfold segment_body. now rewrite H. Qed.

Lemma while_segments_reads_first (labels labels' : list string)
    (owners owners' : list Z) (step margin : Z) (caps : string)
    (q_i num_words : Z) :
  index owners 0 = index owners' 0 ->
  index labels 0 = index labels' 0 ->
  forall fuel t,
    while_segments fuel labels owners step margin caps q_i num_words 0 t
    = while_segments fuel labels' owners' step margin caps q_i num_words 0 t.
Proof.
  intros Hown Hlab.
  induction fuel as [|fuel IH]; intros t; cbn [while_segments];
    rewrite Hown; [reflexivity|].
  destruct (index owners' 0) as [owner|e]; [|reflexivity].
  destruct (owner =? q_i); [|reflexivity].
  rewrite (segment_body_reads_first labels labels') by exact Hlab.
  destruct (segment_body labels' step margin caps num_words 0 t);
    [apply IH | reflexivity].
Qed.

Lemma for_each_query_reads_first (fuel : nat) (labels labels' : list string)
    (owners owners' : list Z) (step margin : Z) (caps : string) :
  index owners 0 = index owners' 0 ->
  index labels 0 = index labels' 0 ->
  forall qs,
    for_each_query fuel labels owners step margin caps qs
    = for_each_query fuel labels' owners' step margin caps qs.
Proof.
  intros Hown Hlab.
  induction qs as [|[q_i query] qs IH]; [reflexivity|].
  cbn [for_each_query]. unfold accumulate_query.
  rewrite (while_segments_reads_first labels labels' owners owners')
    by assumption.
  destruct (while_segments _ _ _ _ _ _ _ _ _ _) as [[t|e]|];
    [apply IH | reflexivity | reflexivity].
Qed.

(** X23. [apply_autoregressive_labels] reads nothing but the entries at
    index 0 of [query_indices] and of [segment_autoregressive_labels], and
    never reads [start_word_i]: two calls that agree on those two entries
    (both present and equal, or both missing) and on the other arguments
    behave alike, whatever the rest of the three lists holds. *)
Theorem apply_autoregressive_labels_reads_first_only (fuel : nat)
    (queries labels labels' : list string)
    (owners owners' starts starts' : list Z) (step margin : Z)
    (caps : string) :
  index owners 0 = index owners' 0 ->
  index labels 0 = index labels' 0 ->
  apply_autoregressive_labels fuel queries labels owners starts step margin
    caps
  = apply_autoregressive_labels fuel queries labels' owners' starts' step
      margin caps.
Proof.
  intros Hown Hlab. unfold apply_autoregressive_labels.
  destruct (re_compile_class caps) as [cls|e]; [|reflexivity].
  now rewrite (for_each_query_reads_first fuel labels labels' owners owners').
Qed.

Lemma apply_autoregressive_labels_reads_first_only_witness :
  apply_autoregressive_labels 3 ["a b c"; "d e f"] ["O O "; "U U "; "u u "]
    [0; 0; 1] [0; 1; 2] 1 0 "OuU"
  = apply_autoregressive_labels 3 ["a b c"; "d e f"] ["O O "] [0] [] 1 0 "OuU".
Proof.
  apply (apply_autoregressive_labels_reads_first_only 3 ["a b c"; "d e f"]
           ["O O "; "U U "; "u u "] ["O O "] [0; 0; 1] [0] [0; 1; 2] [] 1 0
           "OuU");
    reflexivity.
Defined.

(** ** [main]: from the texts to [processed_texts] *)

(** X24. For a non-empty list of texts, lines 239-265 of [main] never bind
    [processed_texts]: whatever the arguments and whatever the oracle
    answers, the segmentation runs forever, or the set-up of the generator,
    the batching or the reconciliation raises, or the reconciliation runs
    forever. *)
Theorem main_never_binds_processed_texts
    (translate : list string -> list string) (args : Args)
    (texts : list string) :
  texts <> [] ->
  forall fuel,
    main_processed_texts translate fuel args texts = None
    \/ exists e,
         main_processed_texts translate fuel args texts = Some (Raise e).
Proof.
  intros Htexts fuel. unfold main_processed_texts, main_split_into_segments.
  destruct (split_into_segments texts (max_seq_length args) (margin args))
    as [[[segs owners] starts]|] eqn:Hrun; [|now left].
  destruct (bind main_beam_search_settings _) as [labels|e];
    [|right; now exists e].
  unfold apply_autoregressive_labels.
  destruct (re_compile_class (capitalization_labels args)) as [cls|e];
    [|right; now exists e].
  destruct (for_each_query_on_split_owners texts (max_seq_length args)
              (margin args) segs owners starts Htexts Hrun fuel labels
              (step args) (margin args) cls)
    as [-> | [e ->]]; [now left | right; now exists e].
Qed.

Lemma main_never_binds_processed_texts_witness :
  let args := mkArgs None (Some "in.txt") None (Some "out.txt") None
                4 2 1 128 "OuU" in
  main_processed_texts (map (fun _ => "O O O O ")) 5 args ["a b c d e f"]
  = None
  \/ exists e,
       main_processed_texts (map (fun _ => "O O O O ")) 5 args ["a b c d e f"]
       = Some (Raise e).
Proof.
  intros args.
  apply (main_never_binds_processed_texts (map (fun _ => "O O O O ")) args
           ["a b c d e f"]).
  intro H. discriminate H.
Defined.


(** ** The votes of the loop over the fields *)

Lemma counter_total_update (c : Counter) (k : string) :
  counter_total (counter_update c k) = counter_total c + 1.
Proof.
  unfold counter_total.
  induction c as [|[k' n] c IH]; simpl; [reflexivity|].
  destruct (String.eqb k k'); simpl; [lia | rewrite IH; lia].
Qed.

Lemma votes_in_set_nth (voting : list Counter) (c c' : Counter) :
  forall n,
    nth_error voting n = Some c ->
    votes_in (set_nth voting n c')
    = votes_in voting - counter_total c + counter_total c'.
Proof.
  unfold votes_in.
  induction voting as [|d voting IH]; intros [|n] H; simpl in H;
    try discriminate.
  - injection H as ->. simpl. lia.
  - simpl. rewrite (IH n H). lia.
Qed.

Lemma length_set_nth {A : Type} (l : list A) (x : A) :
  forall n, List.length (set_nth l n x) = List.length l.
Proof.
  induction l as [|y l IH]; intros [|n]; simpl; try reflexivity.
  now rewrite IH.
Qed.

(** [voting[i].update([lbl])] adds one vote and keeps the number of
    counters. *)
Lemma vote_adds_one (voting voting' : list Counter) (i : Z) (lbl : string) :
  0 <= i ->
  vote voting i lbl = Return voting' ->
  votes_in voting' = votes_in voting + 1
  /\ List.length voting' = List.length voting.
Proof.
  intros Hi. unfold vote, index.
  destruct (i <? 0) eqn:E; [apply Z.ltb_lt in E; lia|].
  rewrite E.
  destruct (nth_error voting (Z.to_nat i)) as [c|] eqn:Hnth; cbn [bind];
    [|discriminate].
  intros H. injection H as <-. split.
  - rewrite (votes_in_set_nth _ _ _ _ Hnth), counter_total_update. lia.
  - apply length_set_nth.
Qed.

(** The cases of the body of the loop over the fields: the [continue], the
    [break], and the two branches of line 203 with their assertion and their
    test for an empty field. *)
Ltac field_step_cases t lbl_i lbl E :=
  unfold field_step;
  destruct ((0 <? _) && _); [intros H; injection H as <- _ <- |];
  [| destruct (negb _ && _); [intros H; injection H as <- _ <- |];
     [| destruct (negb (lbl_i mod 2 =? 0));
        [ destruct (negb (str_in lbl _)); [discriminate|];
          destruct (is_empty lbl); cbn [negb];
          [intros H; injection H as <- _ <- |];
          [| destruct (vote (capitalization_voting t) (lbl_i / 2) lbl)
               eqn:E; cbn [bind]; [|discriminate];
             intros H; injection H as <- _ <- ]
        | destruct (str_in lbl _); [discriminate|];
          destruct (is_empty lbl); cbn [negb];
          [intros H; injection H as <- _ <- |];
          [| destruct (vote (punctuation_voting t) (lbl_i / 2) lbl)
               eqn:E; cbn [bind]; [|discriminate];
             intros H; injection H as <- _ <- ] ] ] ].

(** One pass through the body adds no more than one vote, removes none and
    keeps the lengths of the vote arrays. *)
Lemma field_step_votes_bounds (caps : string) (j margin : Z)
    (the_last_segment : bool) (nwis num_processed : Z) (t : tally)
    (lbl_i : Z) (lbl : string) (f : flow) (n : Z) (t' : tally) :
  0 <= lbl_i ->
  field_step caps j margin the_last_segment nwis num_processed t lbl_i lbl
    = Return (f, n, t') ->
  votes_cast t <= votes_cast t' <= votes_cast t + 1
  /\ List.length (punctuation_voting t') = List.length (punctuation_voting t)
  /\ List.length (capitalization_voting t')
     = List.length (capitalization_voting t).
Proof.
  intros Hi. unfold votes_cast.
  assert (Hhalf : 0 <= lbl_i / 2) by (apply Z.div_pos; lia).
  field_step_cases t lbl_i lbl E; try lia;
    apply vote_adds_one in E as [Hv Hl]; try exact Hhalf;
    cbn [punctuation_voting capitalization_voting]; lia.
Qed.

(** X28. One pass through the body of the loop of line 196 casts at most
    one vote: none when the field is skipped, is the place of the [break] or
    is empty, and exactly one when a non-empty field reaches the end of the
    body; the two vote arrays keep their lengths. *)
Theorem field_step_casts_one_vote (caps : string) (j margin : Z)
    (the_last_segment : bool) (nwis num_processed : Z) (t : tally)
    (lbl_i : Z) (lbl : string) (f : flow) (n : Z) (t' : tally) :
  0 <= lbl_i ->
  field_step caps j margin the_last_segment nwis num_processed t lbl_i lbl
    = Return (f, n, t') ->
  votes_cast t'
    = votes_cast t
      + match f with
        | Counted => if is_empty lbl then 0 else 1
        | _ => 0
        end
  /\ List.length (punctuation_voting t') = List.length (punctuation_voting t)
  /\ List.length (capitalization_voting t')
     = List.length (capitalization_voting t).
Proof.
  intros Hi. unfold votes_cast.
  assert (Hhalf : 0 <= lbl_i / 2) by (apply Z.div_pos; lia).
  field_step_cases t lbl_i lbl E; try lia;
    apply vote_adds_one in E as [Hv Hl]; try exact Hhalf;
    cbn [punctuation_voting capitalization_voting]; lia.
Qed.

Lemma field_step_casts_one_vote_witness :
  votes_cast (mkTally [[]; []; []] [[]; [("U", 1)]])
    = votes_cast (mkTally [[]; []; []] [[]; []]) + 1
  /\ List.length ([[]; []; []] : list Counter)
     = List.length ([[]; []; []] : list Counter)
  /\ List.length ([[]; [("U", 1)]] : list Counter)
     = List.length ([[]; []] : list Counter).
Proof.
  apply (field_step_casts_one_vote "OuU" 0 0 true 2 0
           (mkTally [[]; []; []] [[]; []]) 3 "U" Counted 1
           (mkTally [[]; []; []] [[]; [("U", 1)]]));
    [lia | reflexivity].
Defined.

(** X29. The loop over the fields of one segment casts at most one vote
    per field and keeps one counter per position: when it ends normally the
    number of votes has grown by no more than the number of fields, and the
    two vote arrays have the lengths they had. *)
Theorem for_fields_votes_bounded (caps : string) (j margin : Z)
    (the_last_segment : bool) (nwis : Z) (fields : list (Z * string)) :
  Forall (fun field => 0 <= fst field) fields ->
  forall num_processed t t',
    for_fields caps j margin the_last_segment nwis fields num_processed t
      = Return t' ->
    votes_cast t <= votes_cast t' <= votes_cast t + len fields
    /\ List.length (punctuation_voting t') = List.length (punctuation_voting t)
    /\ List.length (capitalization_voting t')
       = List.length (capitalization_voting t).
Proof.
  unfold len.
  induction 1 as [|[lbl_i lbl] fields Hi _ IH]; intros np t t' Hrun.
  - simpl in Hrun. injection Hrun as <-. simpl. lia.
  - cbn [for_fields] in Hrun. simpl in Hi.
    destruct (field_step caps j margin the_last_segment nwis np t lbl_i lbl)
      as [[[f n] t1]|e] eqn:Hstep; cbn [bind] in Hrun; [|discriminate].
    destruct (field_step_votes_bounds _ _ _ _ _ _ _ _ _ _ _ _ Hi Hstep)
      as (Hone & Hl1 & Hl2).
    cbn [List.length].
    destruct f; try (injection Hrun as <-; lia);
      apply IH in Hrun as (Hv' & Hl1' & Hl2'); lia.
Qed.

Lemma for_fields_votes_bounded_witness :
  votes_cast (mkTally [[]; []; []] [[]; []])
    <= votes_cast (mkTally [[(",", 1)]; []; []] [[("O", 1)]; []])
    <= votes_cast (mkTally [[]; []; []] [[]; []])
       + len [(0, ","); (1, "O"); (3, "U")]
  /\ List.length ([[(",", 1)]; []; []] : list Counter)
     = List.length ([[]; []; []] : list Counter)
  /\ List.length ([[("O", 1)]; []] : list Counter)
     = List.length ([[]; []] : list Counter).
Proof.
  apply (for_fields_votes_bounded "OuU" 0 0 false 1
           [(0, ","); (1, "O"); (3, "U")])
    with (num_processed := 0);
    [repeat constructor; simpl; lia | reflexivity].
Defined.

(** ** [apply_autoregressive_labels]: fields that cast no vote *)

Lemma accumulate_query_no_votes_witness :
  no_votes [[]; []; []] /\ no_votes [[]; []].
Proof.
  exact (accumulate_query_no_votes 3 ["O O "] [1] 1 0 "OuU" 0 "a b"
           (mkTally [[]; []; []] [[]; []]) eq_refl).
Defined.

Lemma str_in_empty (s : string) : str_in "" s = true.
Proof. destruct s; reflexivity. Qed.

(** X30. An empty field at an even position (no punctuation between two
    tags) never casts a vote and never passes quietly: the empty string is
    in every alphabet, so the field is counted as a processed word and then
    is skipped, is the place of the [break], or fails the assertion of line
    208; in the first segment of a query, when it is also the last, the
    assertion always fails. *)
Theorem field_step_empty_field (caps : string) (j margin : Z)
    (the_last_segment : bool) (nwis num_processed : Z) (t : tally)
    (lbl_i : Z) :
  lbl_i mod 2 = 0 ->
  (field_step caps j margin the_last_segment nwis num_processed t lbl_i ""
     = Raise AssertionError
   \/ field_step caps j margin the_last_segment nwis num_processed t lbl_i ""
      = Return (Skipped, num_processed + 1, t)
   \/ field_step caps j margin the_last_segment nwis num_processed t lbl_i ""
      = Return (Stopped, num_processed + 1, t))
  /\ (j = 0 -> the_last_segment = true ->
      field_step caps j margin the_last_segment nwis num_processed t lbl_i ""
      = Raise AssertionError).
Proof.
  intros Heven. unfold field_step.
  rewrite str_in_empty, Heven. change (0 =? 0) with true. cbn [negb].
  split.
  - destruct ((0 <? j) && _); [right; now left|].
    destruct (negb the_last_segment && _); [right; now right|].
    now left.
  - intros -> ->. reflexivity.
Qed.

Lemma field_step_empty_field_witness :
  (field_step "OuU" 0 0 true 2 0 (mkTally [[]; []; []] [[]; []]) 2 ""
     = Raise AssertionError
   \/ field_step "OuU" 0 0 true 2 0 (mkTally [[]; []; []] [[]; []]) 2 ""
      = Return (Skipped, 0 + 1, mkTally [[]; []; []] [[]; []])
   \/ field_step "OuU" 0 0 true 2 0 (mkTally [[]; []; []] [[]; []]) 2 ""
      = Return (Stopped, 0 + 1, mkTally [[]; []; []] [[]; []]))
  /\ (0 = 0 -> true = true ->
      field_step "OuU" 0 0 true 2 0 (mkTally [[]; []; []] [[]; []]) 2 ""
      = Raise AssertionError).
Proof.
  apply (field_step_empty_field "OuU" 0 0 true 2 0
           (mkTally [[]; []; []] [[]; []]) 2).
  reflexivity.
Defined.
